(** * chromedp/nav.go: navigation actions and the load barrier

    A shallow embedding of [nav.go].  Go closures are defunctionalised
    (a closure is the record of what it captures), the state shared
    between the caller's goroutine and the event dispatcher is an explicit
    [World], and the two goroutines interleave at the granularity of the
    atomic [Step]s below. *)

From stdpp Require Import base strings list gmap.
From Stdlib Require Import ZArith Lia.

Local Open Scope string_scope.
Local Open Scope Z_scope.
Local Open Scope list_scope.

(** ** Protocol types (package cdp, package page) *)

Module cdp.
Definition FrameID := string.
(** [cdp.Frame]; only the identifier is read by this file. *)
Record Frame := mkFrame { ID : FrameID }.
End cdp.

Module page.
Record NavigationEntry := mkEntry { ID : Z; URL : string; Title : string }.

Record EventLifecycleEvent :=
  mkLifecycle { FrameID : cdp.FrameID; LoaderID : string; Name : string }.

(** The request half of the protocol calls this file issues. *)
Inductive Command :=
| Navigate (urlstr : string)
| GetNavigationHistory
| NavigateToHistoryEntry (entryID : Z)
| Reload
| StopLoading
| CaptureScreenshot.
End page.

(** A value of type [interface{}] handed to a listener. *)
Inductive Event :=
| LifecycleEvent (e : page.EventLifecycleEvent)
| OtherEvent (kind : string).

(** Go [error] values that can flow through this file; [nil] is [None]. *)
Inductive error :=
| Canceled
| DeadlineExceeded
| errors_New (text : string)
| ProtocolError (text : string).

(** ** Defunctionalised closures *)

Definition chan := nat.
(** [context.CancelFunc] of a child of the governing context: the child. *)
Definition CancelFunc := nat.

(** [isExpectedEvent]: the only closure of that type built in this file is
    the one of [expectLifecycleEvent]; it captures [name] and the context
    [r], and nothing else. *)
Inductive isExpectedEvent := IsLifecycle (name : string).

(** The closure [listen] of [expectEvent] captures [is], [ok], [release]. *)
Inductive listenFn := Listen (is_ : isExpectedEvent) (ok : chan) (release : CancelFunc).

(** [expectFunc]: the closure [expect] captures [ok] and [r]. *)
Inductive expectFunc := Expect (ok : chan).

Record cancelableListener := mkListener { l_ctx : CancelFunc; l_fn : listenFn }.

(** ** The state shared between goroutines *)

(** [*Target]: the current frame and the reader count of [curMu]. *)
Record Target := mkTarget { cur : option cdp.Frame; curMu : nat }.

(** What [cdp.ExecutorFromContext(ctx)] holds. *)
Inductive Executor := IsTarget (t : Target) | NotTarget.

Record World := mkWorld {
  executor : Executor;
  ctx_err : option error;          (* r.Err() of the governing context r *)
  chans : list bool;               (* channel i is closed *)
  scopes : list bool;              (* child context i of r had its cancel called *)
  listeners : list cancelableListener
}.

Definition set_executor x w :=
  mkWorld x (ctx_err w) (chans w) (scopes w) (listeners w).
Definition set_ctx_err x w :=
  mkWorld (executor w) x (chans w) (scopes w) (listeners w).
Definition set_chans x w :=
  mkWorld (executor w) (ctx_err w) x (scopes w) (listeners w).
Definition set_scopes x w :=
  mkWorld (executor w) (ctx_err w) (chans w) x (listeners w).
Definition set_listeners x w :=
  mkWorld (executor w) (ctx_err w) (chans w) (scopes w) x.

(** Atomic steps of the other goroutines: the event dispatcher, whoever
    ends the governing context, the writer of [target.cur], and any holder
    of a release function. *)
Inductive Step :=
| Deliver (ev : Event)
| CtxEnd (e : error)
| SetCur (f : option cdp.Frame)
| CallRelease (c : CancelFunc).

(** ** The calling goroutine *)

(** What a protocol call answers, and what happens while it is in flight. *)
Record Reply := mkReply {
  during : list Step;
  r_err : option error;
  r_cur : Z;
  r_entries : list (option page.NavigationEntry);
  r_data : list Z
}.

(** Calls of the calling goroutine, in program order. *)
Inductive Call :=
| CListen (l : cancelableListener)
| CDo (c : page.Command)
| CExpect (ok : chan)
| CRelease (c : CancelFunc).

Record Proc := mkProc {
  world : World;
  replies : list Reply;            (* answers of the protocol calls to come *)
  pending : list Step;             (* what happens while expect() blocks *)
  coin : bool;                     (* select's pick when both cases are ready *)
  mem_int64 : gmap nat Z;          (* the int64 variables pointed to *)
  mem_entries : gmap nat (list (option page.NavigationEntry));
  mem_bytes : gmap nat (list Z);
  log : list Call
}.

Definition set_world x p :=
  mkProc x (replies p) (pending p) (coin p) (mem_int64 p) (mem_entries p)
         (mem_bytes p) (log p).
Definition set_replies x p :=
  mkProc (world p) x (pending p) (coin p) (mem_int64 p) (mem_entries p)
         (mem_bytes p) (log p).
Definition set_pending x p :=
  mkProc (world p) (replies p) x (coin p) (mem_int64 p) (mem_entries p)
         (mem_bytes p) (log p).
Definition set_mem_int64 x p :=
  mkProc (world p) (replies p) (pending p) (coin p) x (mem_entries p)
         (mem_bytes p) (log p).
Definition set_mem_entries x p :=
  mkProc (world p) (replies p) (pending p) (coin p) (mem_int64 p) x
         (mem_bytes p) (log p).
Definition set_mem_bytes x p :=
  mkProc (world p) (replies p) (pending p) (coin p) (mem_int64 p)
         (mem_entries p) x (log p).
Definition record (c : Call) p :=
  mkProc (world p) (replies p) (pending p) (coin p) (mem_int64 p)
         (mem_entries p) (mem_bytes p) (log p ++ [c]).

(** ** A monad for code that can panic or block forever *)

Inductive Outcome (St A : Type) :=
| Done (a : A) (s : St)
| Panic (msg : string) (s : St)
| Blocked (s : St).
Arguments Done {St A} a s.
Arguments Panic {St A} msg s.
Arguments Blocked {St A} s.

Definition M (St A : Type) := St -> Outcome St A.

Definition ret {St A} (a : A) : M St A := fun s => Done a s.

Definition bind {St A B} (m : M St A) (k : A -> M St B) : M St B := fun s =>
  match m s with
  | Done a s' => k a s'
  | Panic msg s' => Panic msg s'
  | Blocked s' => Blocked s'
  end.

Definition panic {St A} (msg : string) : M St A := fun s => Panic msg s.

Notation "'let*' x ':=' m 'in' k" := (bind m (fun x => k))
  (at level 10, x pattern, m at level 100, k at level 200).

(** Code on the shared state, run by the calling goroutine. *)
Definition shared {A} (m : M World A) : M Proc A := fun p =>
  match m (world p) with
  | Done a w => Done a (set_world w p)
  | Panic msg w => Panic msg (set_world w p)
  | Blocked w => Blocked (set_world w p)
  end.

(** [defer d] around [body]: [d] runs when [body] returns and when it
    panics; a goroutine blocked forever never gets there. *)
Definition defer {St A} (d : M St unit) (body : M St A) : M St A := fun s =>
  match body s with
  | Done a s' =>
      match d s' with
      | Done _ s'' => Done a s''
      | Panic msg s'' => Panic msg s''
      | Blocked s'' => Blocked s''
      end
  | Panic msg s' =>
      match d s' with
      | Done _ s'' => Panic msg s''
      | Panic msg' s'' => Panic msg' s''
      | Blocked s'' => Blocked s''
      end
  | Blocked s' => Blocked s'
  end.

Definition result {St A} (o : Outcome St A) : option A :=
  match o with Done a _ => Some a | _ => None end.

Definition final {St A} (o : Outcome St A) : St :=
  match o with Done _ s | Panic _ s | Blocked s => s end.

(** ** Primitives: channels, contexts, the read lock *)

(** [make(chan struct{})] *)
Definition make_chan : M World chan := fun w =>
  Done (length (chans w)) (set_chans (chans w ++ [false]) w).

(** [close(c)]: closing a closed channel panics. *)
Definition close (c : chan) : M World unit := fun w =>
  match chans w !! c with
  | Some false => Done tt (set_chans (<[c:=true]> (chans w)) w)
  | Some true => Panic "close of closed channel" w
  | None => Panic "close of nil channel" w
  end.

Definition closed (w : World) (c : chan) : bool :=
  match chans w !! c with Some b => b | None => false end.

(** [context.WithCancel(r)] on the governing context: the child and its
    cancel function. *)
Definition WithCancel : M World (CancelFunc * CancelFunc) := fun w =>
  let c := length (scopes w) in
  Done (c, c) (set_scopes (scopes w ++ [false]) w).

(** Calling a [CancelFunc]: only the first call has an effect. *)
Definition cancel (c : CancelFunc) : M World unit := fun w =>
  Done tt (set_scopes (<[c:=true]> (scopes w)) w).

Definition cancelled (w : World) (c : CancelFunc) : bool :=
  match scopes w !! c with Some b => b | None => false end.

(** [<-ctx.Done()] is ready for a child of [r] once its own cancel was
    called or [r] itself is done. *)
Definition scope_done (w : World) (c : CancelFunc) : bool :=
  cancelled w c || bool_decide (is_Some (ctx_err w)).

(** [curMu] is the count of read locks held.  The model keeps no queue of
    waiting writers: [RLock] always gets the lock, and a writer that finds a
    read lock held gives up (see [write_cur]).  In Go that writer would
    wait, and every later [RLock] would wait behind it.  The two agree on
    the runs in which no writer meets a held read lock. *)
Definition RLock (t : Target) : Target := mkTarget (cur t) (S (curMu t)).
Definition RUnlock (t : Target) : Target := mkTarget (cur t) (Nat.pred (curMu t)).

(** ** nav.go: the barrier *)

Definition navigatedFrameID : M World cdp.FrameID := fun w =>
  match executor w with
  | NotTarget => Done "" w
  | IsTarget target =>
      let target := RLock target in
      match cur target with
      | None => Done "" (set_executor (IsTarget target) w)
      | Some f =>
          let id := cdp.ID f in
          let target := RUnlock target in
          Done id (set_executor (IsTarget target) w)
      end
  end.

(** The closure [is] of [expectLifecycleEvent], applied to [i]. *)
Definition apply_is (is_ : isExpectedEvent) (i : Event) : M World bool :=
  match is_ with
  | IsLifecycle name =>
      match i with
      | LifecycleEvent e =>
          if String.eqb (page.Name e) name
          then let* id := navigatedFrameID in ret (String.eqb (page.FrameID e) id)
          else ret false
      | OtherEvent _ => ret false
      end
  end.

(** The closure [listen] of [expectEvent], applied to [i]. *)
Definition apply_listen (l : listenFn) (i : Event) : M World unit :=
  match l with
  | Listen is_ ok release =>
      let* b := apply_is is_ i in
      if b then let* _ := close ok in cancel release else ret tt
  end.

(** Modelled from the spec: [ListenTarget] is declared outside nav.go.  The
    event subscription facility "delivers every event value observed on the
    target to handler until scope is canceled", accepts the registration
    synchronously, and hands each event to a listener at most once, in the
    order received. *)
Definition ListenTarget (ctx : CancelFunc) (fn : listenFn) : M Proc unit := fun p =>
  let l := mkListener ctx fn in
  let w := world p in
  Done tt (set_world (set_listeners (listeners w ++ [l]) w) (record (CListen l) p)).

(** Modelled from the spec: the dispatcher of the event bus is outside
    nav.go.  One round of its loop: a listener whose scope is done gets no
    more events ("until scope is canceled"), any other is called. *)
Definition visit (l : cancelableListener) (ev : Event) : M World unit := fun w =>
  if scope_done w (l_ctx l) then Done tt w else apply_listen (l_fn l) ev w.

(** Modelled from the spec: the event bus hands an event to its listeners
    one after the other, in the order they registered. *)
Fixpoint dispatch (ls : list cancelableListener) (ev : Event) : M World unit :=
  match ls with
  | [] => ret tt
  | l :: ls' => let* _ := visit l ev in dispatch ls' ev
  end.

(** Modelled from the spec: the writer of [target.cur] is outside nav.go;
    it "is assumed to hold a write-lock when updating it", which it cannot
    take while a read lock is held. *)
Definition write_cur (f : option cdp.Frame) : M World unit := fun w =>
  match executor w with
  | IsTarget t =>
      match curMu t with
      | O => Done tt (set_executor (IsTarget (mkTarget f O)) w)
      | S _ => Done tt w
      end
  | NotTarget => Done tt w
  end.

Definition step (s : Step) : M World unit :=
  match s with
  | Deliver ev => fun w => dispatch (listeners w) ev w
  | CtxEnd e => fun w =>
      Done tt (match ctx_err w with None => set_ctx_err (Some e) w | Some _ => w end)
  | SetCur f => write_cur f
  | CallRelease c => cancel c
  end.

Fixpoint steps (ss : list Step) : M World unit :=
  match ss with
  | [] => ret tt
  | s :: ss' => let* _ := step s in steps ss'
  end.

Definition expectEvent (is_ : isExpectedEvent) : M Proc (expectFunc * CancelFunc) :=
  let* ok := shared make_chan in
  let* (listener, release) := shared WithCancel in
  let listen := Listen is_ ok release in
  let* _ := ListenTarget listener listen in
  let expect := Expect ok in
  ret (expect, release).

(** The [select] of [expect]: [None] when neither case is ready. *)
Definition select (ok : chan) (pick : bool) (w : World) : option (option error) :=
  match closed w ok, ctx_err w with
  | true, None => Some None
  | false, Some e => Some (Some e)
  | true, Some e => Some (if pick then None else Some e)
  | false, None => None
  end.

(** A blocked [select] is woken by the first step that makes a case ready;
    with no step left it blocks forever.  Returns what is left to happen. *)
Fixpoint block (ok : chan) (pick : bool) (sched : list Step)
  : M World (option error * list Step) := fun w =>
  match select ok pick w with
  | Some r => Done (r, sched) w
  | None =>
      match sched with
      | [] => Blocked w
      | s :: sched' =>
          match step s w with
          | Done _ w' => block ok pick sched' w'
          | Panic msg w' => Panic msg w'
          | Blocked w' => Blocked w'
          end
      end
  end.

(** A call [expect()] of an [expectFunc] value [expect]. *)
Definition wait (expect : expectFunc) : M Proc (option error) :=
  match expect with
  | Expect ok => fun p =>
      let p := record (CExpect ok) p in
      (let* (r, rest) := shared (block ok (coin p) (pending p)) in
       fun p => Done r (set_pending rest p)) p
  end.

(** A call [release()] of a [CancelFunc] value [release]. *)
Definition call (release : CancelFunc) : M Proc unit := fun p =>
  shared (cancel release) (record (CRelease release) p).

Definition expectLifecycleEvent (name : string) : M Proc (expectFunc * CancelFunc) :=
  expectEvent (IsLifecycle name).

Definition expectLifecycleLoaded : M Proc (expectFunc * CancelFunc) :=
  expectLifecycleEvent "load".

(** ** nav.go: the actions *)

(** [c.Do(ctx)]: the request goes out, the world moves on, the answer
    comes back; with no answer the call never returns. *)
Definition Do (c : page.Command) : M Proc Reply := fun p =>
  let p := record (CDo c) p in
  match replies p with
  | [] => Blocked p
  | r :: rs => (let* _ := shared (steps (during r)) in ret r) (set_replies rs p)
  end.

(** The source assigns the results of [Do] with [=] to an [err] it does not
    declare; the error tested is the one [Do] returned. *)
Definition Navigate (urlstr : string) : M Proc (option error) :=
  let* (expect, release) := expectLifecycleLoaded in
  defer (call release)
    (let* r := Do (page.Navigate urlstr) in
     match r_err r with
     | Some err => ret (Some err)
     | None => wait expect
     end).

Definition pointer := option nat.

(** What a constructor of an action gives: the action, or a panic. *)
Inductive Built (A : Type) :=
| Action (a : A)
| Aborted (msg : string).
Arguments Action {A} a.
Arguments Aborted {A} msg.

Definition NavigationEntries (currentIndex entries : pointer)
  : Built (M Proc (option error)) :=
  match currentIndex, entries with
  | Some pc, Some pe =>
      Action
        (let* r := Do page.GetNavigationHistory in
         fun p =>
           Done (r_err r)
                (set_mem_entries (<[pe := r_entries r]> (mem_entries p))
                   (set_mem_int64 (<[pc := r_cur r]> (mem_int64 p)) p)))
  | _, _ => Aborted "currentIndex and entries cannot be nil"
  end.

Definition NavigateToHistoryEntry (entryID : Z) : M Proc (option error) :=
  let* (expect, release) := expectLifecycleLoaded in
  defer (call release)
    (let* r := Do (page.NavigateToHistoryEntry entryID) in
     match r_err r with
     | Some err => ret (Some err)
     | None => wait expect
     end).

(** [entries[i]] followed by a field read through the pointer found there. *)
Definition index (entries : list (option page.NavigationEntry)) (i : Z)
  : M Proc page.NavigationEntry :=
  if i <? 0 then panic "index out of range"
  else match entries !! Z.to_nat i with
       | None => panic "index out of range"
       | Some None => panic "nil pointer dereference"
       | Some (Some e) => ret e
       end.

Definition NavigateBack : M Proc (option error) :=
  let* h := Do page.GetNavigationHistory in
  match r_err h with
  | Some err => ret (Some err)
  | None =>
      let cur := r_cur h in
      let entries := r_entries h in
      if (cur <=? 0) || (cur >? Z.of_nat (length entries) - 1)
      then ret (Some (errors_New "invalid navigation entry"))
      else
        let* (expect, release) := expectLifecycleLoaded in
        defer (call release)
          (let* e := index entries (cur - 1) in
           let entryID := page.ID e in
           let* r := Do (page.NavigateToHistoryEntry entryID) in
           match r_err r with
           | Some err => ret (Some err)
           | None => wait expect
           end)
  end.

Definition NavigateForward : M Proc (option error) :=
  let* h := Do page.GetNavigationHistory in
  match r_err h with
  | Some err => ret (Some err)
  | None =>
      let cur := r_cur h in
      let entries := r_entries h in
      if (cur <? 0) || (cur >=? Z.of_nat (length entries) - 1)
      then ret (Some (errors_New "invalid navigation entry"))
      else
        let* (expect, release) := expectLifecycleLoaded in
        defer (call release)
          (let* e := index entries (cur + 1) in
           let entryID := page.ID e in
           let* r := Do (page.NavigateToHistoryEntry entryID) in
           match r_err r with
           | Some err => ret (Some err)
           | None => wait expect
           end)
  end.

Definition Reload : M Proc (option error) :=
  let* (expect, release) := expectLifecycleLoaded in
  defer (call release)
    (let* r := Do page.Reload in
     match r_err r with
     | Some err => ret (Some err)
     | None => wait expect
     end).

Definition Stop : M Proc (option error) :=
  let* r := Do page.StopLoading in ret (r_err r).

Definition CaptureScreenshot (res : pointer) : Built (M Proc (option error)) :=
  match res with
  | None => Aborted "res cannot be nil"
  | Some ptr =>
      Action
        (let* r := Do page.CaptureScreenshot in
         fun p => Done (r_err r) (set_mem_bytes (<[ptr := r_data r]> (mem_bytes p)) p))
  end.

(** ** Sample worlds *)

Definition frameA : cdp.Frame := cdp.mkFrame "A".
Definition frameB : cdp.Frame := cdp.mkFrame "B".

Definition world0 : World :=
  mkWorld (IsTarget (mkTarget (Some frameA) 0)) None [] [] [].

Definition proc0 (rs : list Reply) (pend : list Step) : Proc :=
  mkProc world0 rs pend true ∅ ∅ ∅ [].

Definition load (f : cdp.FrameID) : Event :=
  LifecycleEvent (page.mkLifecycle f "L" "load").

Definition ack (ss : list Step) : Reply := mkReply ss None 0 [] [].

(** ** Definitions for the statements: invariants, closed forms, samples *)

(** The value [navigatedFrameID] reads. *)
Definition frame_identity (w : World) : cdp.FrameID :=
  match executor w with
  | IsTarget t => match cur t with Some f => cdp.ID f | None => "" end
  | NotTarget => ""
  end.

(** The read locks of [curMu] currently held. *)
Definition readers (w : World) : nat :=
  match executor w with IsTarget t => curMu t | NotTarget => O end.

(** The value the closure [is] returns. *)
Definition matches (is_ : isExpectedEvent) (i : Event) (w : World) : bool :=
  match is_, i with
  | IsLifecycle name, LifecycleEvent e =>
      String.eqb (page.Name e) name && String.eqb (page.FrameID e) (frame_identity w)
  | IsLifecycle _, OtherEvent _ => false
  end.

Definition l_is (l : cancelableListener) : isExpectedEvent :=
  match l_fn l with Listen is_ _ _ => is_ end.
Definition l_ok (l : cancelableListener) : chan :=
  match l_fn l with Listen _ ok _ => ok end.
Definition l_release (l : cancelableListener) : CancelFunc :=
  match l_fn l with Listen _ _ release => release end.

(** Listener [l] is still subscribed and its predicate accepts [ev]. *)
Definition fires (l : cancelableListener) (ev : Event) (w : World) : bool :=
  negb (scope_done w (l_ctx l)) && matches (l_is l) ev w.

(** The part of the world a read of the frame identity leaves alone. *)
Definition lock_only (w w' : World) : Prop :=
  ctx_err w' = ctx_err w /\ chans w' = chans w /\ scopes w' = scopes w /\
  listeners w' = listeners w /\ frame_identity w' = frame_identity w.

(** Worlds in which every registered listener was built by [expectEvent]. *)
Record wf (w : World) : Prop := mk_wf {
  wf_own : forall l, l ∈ listeners w -> l_release l = l_ctx l;
  wf_chan : forall l, l ∈ listeners w -> (l_ok l < length (chans w))%nat;
  wf_scope : forall l, l ∈ listeners w -> (l_ctx l < length (scopes w))%nat;
  wf_ok_inj : NoDup (l_ok <$> listeners w);
  wf_ctx_inj : NoDup (l_ctx <$> listeners w);
  wf_closed : forall l, l ∈ listeners w ->
                closed w (l_ok l) = true -> cancelled w (l_ctx l) = true
}.

(** What only ever grows. *)
Record grows (w w' : World) : Prop := mk_grows {
  g_listeners : listeners w' = listeners w;
  g_chans : length (chans w') = length (chans w);
  g_scopes : length (scopes w') = length (scopes w);
  g_closed : forall c, closed w c = true -> closed w' c = true;
  g_cancelled : forall c, cancelled w c = true -> cancelled w' c = true;
  g_ctx : forall e, ctx_err w = Some e -> ctx_err w' = Some e
}.

(** Which channels and scopes a delivery of [ev] to [ls] hits. *)
Definition hit_ok (ls : list cancelableListener) (ev : Event) (w : World)
  (c : chan) : bool :=
  existsb (fun l => fires l ev w && bool_decide (c = l_ok l)) ls.
Definition hit_ctx (ls : list cancelableListener) (ev : Event) (w : World)
  (s : CancelFunc) : bool :=
  existsb (fun l => fires l ev w && bool_decide (s = l_ctx l)) ls.

(** The world after [ev] went to the listeners [ls], in closed form. *)
Record delivered (ls : list cancelableListener) (ev : Event) (w w' : World)
  : Prop := mk_delivered {
  d_listeners : listeners w' = listeners w;
  d_ctx : ctx_err w' = ctx_err w;
  d_frame : frame_identity w' = frame_identity w;
  d_chans : length (chans w') = length (chans w);
  d_scopes : length (scopes w') = length (scopes w);
  d_closed : forall c, closed w' c = closed w c || hit_ok ls ev w c;
  d_cancelled : forall s, cancelled w' s = cancelled w s || hit_ctx ls ev w s
}.

(** The process right after [expectEvent] returned. *)
Definition arm (is_ : isExpectedEvent) (p : Proc) : Proc :=
  let w := world p in
  let ok := length (chans w) in
  let release := length (scopes w) in
  let l := mkListener release (Listen is_ ok release) in
  set_world (mkWorld (executor w) (ctx_err w) (chans w ++ [false])
                     (scopes w ++ [false]) (listeners w ++ [l]))
            (record (CListen l) p).

(** The predicate the event bus holds for the barrier with channel [ok]. *)
Definition predicate_of (w : World) (ok : chan) : option isExpectedEvent :=
  l_is <$> List.find (fun l => Nat.eqb (l_ok l) ok) (listeners w).

(** C1 as the specification states it: whatever happens between arming and
    an evaluation of the barrier's predicate, the evaluation compares the
    event's frame with the frame identity of the world the barrier was
    armed in. *)
Definition frame_fixed_at_arm (p0 : Proc) (name : string) (tr : list Step)
  (i : Event) : Prop :=
  forall ok release p1 w2 p_is b,
    expectLifecycleEvent name p0 = Done (Expect ok, release) p1 ->
    steps tr (world p1) = Done tt w2 ->
    predicate_of w2 ok = Some p_is ->
    result (apply_is p_is i w2) = Some b ->
    b = matches p_is i (world p1).

(** The body shared by the actions that wait for the load. *)
Definition orchestrate (c : page.Command) : M Proc (option error) :=
  let* (expect, release) := expectLifecycleLoaded in
  defer (call release)
    (let* r := Do c in
     match r_err r with
     | Some err => ret (Some err)
     | None => wait expect
     end).

(** The listener an action arms in process [p]. *)
Definition load_listener (p : Proc) : cancelableListener :=
  mkListener (length (scopes (world p)))
             (Listen (IsLifecycle "load") (length (chans (world p)))
                     (length (scopes (world p)))).

(** The protocol commands that start a navigation. *)
Definition is_trigger (c : page.Command) : bool :=
  match c with
  | page.Navigate _ | page.NavigateToHistoryEntry _ | page.Reload => true
  | page.GetNavigationHistory | page.StopLoading | page.CaptureScreenshot => false
  end.

Definition is_load (l : cancelableListener) : bool :=
  match l_is l with IsLifecycle name => String.eqb name "load" end.

(** A sequence of calls in which every trigger command comes after the
    registration of a "load" listener. *)
Fixpoint ordered (armed : bool) (cs : list Call) : bool :=
  match cs with
  | [] => true
  | CListen l :: cs' => ordered (armed || is_load l) cs'
  | CDo c :: cs' => (negb (is_trigger c) || armed) && ordered armed cs'
  | _ :: cs' => ordered armed cs'
  end.

(** What back and forward do once the index passed their check. *)
Definition to_entry (entries : list (option page.NavigationEntry)) (i : Z)
  : M Proc (option error) :=
  let* (expect, release) := expectLifecycleLoaded in
  defer (call release)
    (let* e := index entries i in
     let entryID := page.ID e in
     let* r := Do (page.NavigateToHistoryEntry entryID) in
     match r_err r with
     | Some err => ret (Some err)
     | None => wait expect
     end).

(** The actions that wait for the load of the navigated frame. *)
Inductive Op :=
| ONavigate (urlstr : string)
| ONavigateToHistoryEntry (entryID : Z)
| ONavigateBack
| ONavigateForward
| OReload.

Definition run (o : Op) : M Proc (option error) :=
  match o with
  | ONavigate urlstr => Navigate urlstr
  | ONavigateToHistoryEntry entryID => NavigateToHistoryEntry entryID
  | ONavigateBack => NavigateBack
  | ONavigateForward => NavigateForward
  | OReload => Reload
  end.

(** Action [act], started in [p] after the calls [before], got the error
    [e] as the answer to command [c] and returned it: it had registered a
    listener, sent [c], never called [expect()], and called the release
    function of that listener, whose scope is cancelled at the end. *)
Definition returns_command_error (act : M Proc (option error)) (p : Proc)
  (before : list Call) (c : page.Command) (e : error) : Prop :=
  exists p' l,
    act p = Done (Some e) p' /\
    log p' = log p ++ before ++ [CListen l; CDo c; CRelease (l_release l)] /\
    l ∈ listeners (world p') /\
    cancelled (world p') (l_ctx l) = true /\
    pending p' = pending p.

(** A barrier for "load" armed in the initial world. *)
Definition p_armed : Proc := arm (IsLifecycle "load") (proc0 [] []).

(** The target moved from frame A to frame B after arming. *)
Definition world_moved : World :=
  final (steps [SetCur (Some frameB)] (world p_armed)).

(** The governing context was cancelled after arming. *)
Definition p_cancelled : Proc :=
  set_world (final (steps [CtxEnd Canceled] (world p_armed))) p_armed.

Definition entry0 : page.NavigationEntry := page.mkEntry 7 "u0" "t0".
Definition entry1 : page.NavigationEntry := page.mkEntry 8 "u1" "t1".
Definition history (cur : Z) : Reply :=
  mkReply [] None cur [Some entry0; Some entry1] [].
Definition refused : Reply := mkReply [] (Some (ProtocolError "net")) 0 [] [].

(** The executor is a target that has no current frame. *)
Definition nil_cur (w : World) : bool :=
  match executor w with
  | IsTarget t => match cur t with None => true | Some _ => false end
  | NotTarget => false
  end.

(** The first test of the closure [is]: the kind and the name of the event. *)
Definition name_matches (p_is : isExpectedEvent) (i : Event) : bool :=
  match p_is, i with
  | IsLifecycle name, LifecycleEvent e => String.eqb (page.Name e) name
  | IsLifecycle _, OtherEvent _ => false
  end.

(** The listeners that get [ev] and go on to read the frame identity. *)
Definition reads_frame (l : cancelableListener) (ev : Event) (w : World) : bool :=
  negb (scope_done w (l_ctx l)) && name_matches (l_is l) ev.

(** In the steps [tr] run from the world of [pa], an event was delivered
    that the "load" predicate accepted while the listener with scope
    [release] was still subscribed. *)
Definition load_observed (pa : Proc) (tr : list Step) (release : CancelFunc)
  : Prop :=
  exists s1 ev s2 wa,
    tr = s1 ++ Deliver ev :: s2 /\
    steps s1 (world pa) = Done tt wa /\
    scope_done wa release = false /\
    result (apply_is (IsLifecycle "load") ev wa) = Some true.

(** The caller released the armed barrier before any event came. *)
Definition world_released : World :=
  final (steps [CallRelease 0%nat] (world p_armed)).

(** The armed barrier on a target that has no current frame. *)
Definition world_no_frame : World :=
  set_executor (IsTarget (mkTarget None 0)) (world p_armed).

(** A context whose executor is not a target. *)
Definition world_no_target : World := set_executor NotTarget world0.

(** A history answer with a nil entry before the current one. *)
Definition history_nil : Reply := mkReply [] None 1 [None; Some entry1] [].

(** A process whose navigation command is answered while the load of frame
    A is delivered. *)
Definition p_loading : Proc := proc0 [ack [Deliver (load "A")]] [].

(** * Properties *)

(** ** The model at sample inputs *)

Example Navigate_loads :
  result (Navigate "u" (proc0 [ack [Deliver (load "A")]] [])) = Some None.
Proof. reflexivity. Qed.

Example Navigate_loads_late :
  result (Navigate "u" (proc0 [ack []] [Deliver (load "B"); Deliver (load "A")]))
  = Some None.
Proof. reflexivity. Qed.

Example Navigate_other_frame_blocks :
  exists p, Navigate "u" (proc0 [ack [Deliver (load "B")]] []) = Blocked p.
Proof. eexists. reflexivity. Qed.

Example NavigateBack_goes_to_previous :
  log (final (NavigateBack (proc0 [history 1; ack [Deliver (load "A")]] [])))
  = [CDo page.GetNavigationHistory; CListen (load_listener (proc0 [] []));
     CDo (page.NavigateToHistoryEntry 7); CExpect 0%nat; CRelease 0%nat]
  /\ result (NavigateBack (proc0 [history 1; ack [Deliver (load "A")]] []))
     = Some None.
Proof. split; reflexivity. Qed.

Example NavigateForward_at_last_index :
  result (NavigateForward (proc0 [history 1] []))
  = Some (Some (errors_New "invalid navigation entry")).
Proof. reflexivity. Qed.

Example NavigateBack_nil_entry_panics :
  match NavigateBack (proc0 [mkReply [] None 1 [None; Some entry1] []] []) with
  | Panic msg p => msg = "nil pointer dereference" /\ cancelled (world p) 0%nat = true
  | _ => False
  end.
Proof. split; reflexivity. Qed.

Example Navigate_cancelled :
  result (Navigate "u" (proc0 [ack []] [CtxEnd Canceled])) = Some (Some Canceled).
Proof. reflexivity. Qed.

(** ** What the shared-state code computes *)

Lemma grows_refl w : grows w w.
Proof. by constructor. Qed.

Lemma grows_trans w1 w2 w3 : grows w1 w2 -> grows w2 w3 -> grows w1 w3.
Proof.
  intros [] []; constructor; try congruence; eauto.
Qed.

Lemma grows_scope_done w w' c :
  grows w w' -> scope_done w c = true -> scope_done w' c = true.
Proof.
  intros G. unfold scope_done. rewrite !orb_true_iff, !bool_decide_eq_true.
  intros [H | [e H]].
  - left. by apply (g_cancelled _ _ G).
  - right. exists e. by apply (g_ctx _ _ G).
Qed.

Lemma navigatedFrameID_spec w :
  exists w', navigatedFrameID w = Done (frame_identity w) w' /\ lock_only w w'.
Proof.
  unfold navigatedFrameID, frame_identity, lock_only.
  destruct w as [[[[f|] n]|] ce ch sc ls]; simpl; eexists; (split; [reflexivity|]);
    simpl; auto.
Qed.

Lemma apply_is_spec is_ i w :
  exists w', apply_is is_ i w = Done (matches is_ i w) w' /\ lock_only w w'.
Proof.
  destruct is_ as [name], i as [e | k]; simpl.
  - destruct (String.eqb (page.Name e) name); simpl.
    + unfold bind. destruct (navigatedFrameID_spec w) as (w' & -> & L).
      exists w'. split; [reflexivity | exact L].
    + exists w. split; [reflexivity|]. by repeat split.
  - exists w. split; [reflexivity|]. by repeat split.
Qed.

Lemma existsb_ext_in {A} (f g : A -> bool) (l : list A) :
  (forall x, x ∈ l -> f x = g x) -> existsb f l = existsb g l.
Proof.
  induction l as [|a l IH]; intros H; simpl; [done|].
  rewrite H by apply list_elem_of_here.
  rewrite IH; [done|]. intros x Hx. apply H. by apply list_elem_of_further.
Qed.

Lemma fmap_inj_in {A B} (f : A -> B) (l : list A) x y :
  NoDup (f <$> l) -> x ∈ l -> y ∈ l -> f x = f y -> x = y.
Proof.
  induction l as [|a l IH]; simpl; intros ND Hx Hy E.
  - by apply elem_of_nil in Hx.
  - apply NoDup_cons in ND as [Na ND].
    apply elem_of_cons in Hx as [-> | Hx]; apply elem_of_cons in Hy as [-> | Hy];
      auto.
    + exfalso. apply Na. rewrite E. by apply list_elem_of_fmap_2.
    + exfalso. apply Na. rewrite <- E. by apply list_elem_of_fmap_2.
Qed.

Lemma closed_insert w c c' :
  (c' < length (chans w))%nat ->
  closed (set_chans (<[c':=true]> (chans w)) w) c = closed w c || bool_decide (c = c').
Proof.
  intros Hlt. unfold closed; simpl. case_bool_decide as E.
  - subst. rewrite list_lookup_insert_eq by done. by rewrite orb_true_r.
  - rewrite list_lookup_insert_ne by done. by rewrite orb_false_r.
Qed.

Lemma cancelled_insert w s s' :
  (s' < length (scopes w))%nat ->
  cancelled (set_scopes (<[s':=true]> (scopes w)) w) s
  = cancelled w s || bool_decide (s = s').
Proof.
  intros Hlt. unfold cancelled; simpl. case_bool_decide as E.
  - subst. rewrite list_lookup_insert_eq by done. by rewrite orb_true_r.
  - rewrite list_lookup_insert_ne by done. by rewrite orb_false_r.
Qed.

Lemma visit_spec l ev w :
  wf w -> l ∈ listeners w ->
  exists w', visit l ev w = Done tt w' /\ delivered [l] ev w w'.
Proof.
  intros W Hl. unfold visit, hit_ok, hit_ctx.
  destruct (scope_done w (l_ctx l)) eqn:Hd.
  { exists w. split; [done|].
    constructor; try done; intros; unfold hit_ok, hit_ctx, fires; simpl;
      rewrite Hd; simpl; by rewrite orb_false_r. }
  pose proof (wf_own _ W l Hl) as Hown.
  pose proof (wf_chan _ W l Hl) as Hch.
  pose proof (wf_scope _ W l Hl) as Hsc.
  pose proof (wf_closed _ W l Hl) as Hcl.
  unfold l_release, l_ok, l_is in *.
  destruct l as [ctx [is_ ok rel]]; simpl in *. subst rel.
  unfold bind. destruct (apply_is_spec is_ ev w) as (w1 & -> & L).
  destruct L as (Lc & Lch & Ls & Ll & Lf).
  assert (Hfire : fires (mkListener ctx (Listen is_ ok ctx)) ev w = matches is_ ev w).
  { unfold fires; simpl. by rewrite Hd. }
  destruct (matches is_ ev w) eqn:Hm.
  - unfold close. rewrite Lch.
    destruct (chans w !! ok) as [[|]|] eqn:Hok.
    + exfalso. assert (closed w ok = true) as Hc by (unfold closed; by rewrite Hok).
      apply Hcl in Hc. unfold scope_done in Hd. by rewrite Hc in Hd.
    + eexists. split; [reflexivity|].
      constructor; simpl; try done.
      * by rewrite length_insert.
      * by rewrite length_insert, Ls.
      * intros c. unfold hit_ok; simpl. rewrite Hfire, orb_false_r; simpl.
        pose proof (closed_insert w c ok Hch) as E. unfold closed in *; simpl in *.
        exact E.
      * intros s. unfold hit_ctx; simpl. rewrite Hfire, orb_false_r; simpl.
        pose proof (cancelled_insert w s ctx Hsc) as E.
        unfold cancelled in *; simpl in *. rewrite Ls. exact E.
    + apply lookup_ge_None in Hok. lia.
  - exists w1. split; [done|].
    constructor; try done; try congruence.
    + intros c. unfold hit_ok; simpl. rewrite Hfire; simpl.
      unfold closed. by rewrite Lch, orb_false_r.
    + intros s. unfold hit_ctx; simpl. rewrite Hfire; simpl.
      unfold cancelled. by rewrite Ls, orb_false_r.
Qed.

Lemma hit_ok_true ls ev w c :
  hit_ok ls ev w c = true <-> exists l, l ∈ ls /\ fires l ev w = true /\ c = l_ok l.
Proof.
  unfold hit_ok. rewrite existsb_exists. split.
  - intros (l & Hl & H). apply andb_true_iff in H as [H1 H2].
    apply bool_decide_eq_true in H2. apply list_elem_of_In in Hl. by exists l.
  - intros (l & Hl & H1 & ->). exists l. apply list_elem_of_In in Hl. split; [done|].
    rewrite H1. by rewrite bool_decide_eq_true_2.
Qed.

Lemma hit_ctx_true ls ev w s :
  hit_ctx ls ev w s = true <-> exists l, l ∈ ls /\ fires l ev w = true /\ s = l_ctx l.
Proof.
  unfold hit_ctx. rewrite existsb_exists. split.
  - intros (l & Hl & H). apply andb_true_iff in H as [H1 H2].
    apply bool_decide_eq_true in H2. apply list_elem_of_In in Hl. by exists l.
  - intros (l & Hl & H1 & ->). exists l. apply list_elem_of_In in Hl. split; [done|].
    rewrite H1. by rewrite bool_decide_eq_true_2.
Qed.

Lemma delivered_grows ls ev w w' : delivered ls ev w w' -> grows w w'.
Proof.
  intros D. constructor; try apply D.
  - intros c H. by rewrite (d_closed _ _ _ _ D), H.
  - intros c H. by rewrite (d_cancelled _ _ _ _ D), H.
  - intros e H. by rewrite (d_ctx _ _ _ _ D).
Qed.

Lemma delivered_wf ls ev w w' :
  wf w -> ls ⊆ listeners w -> delivered ls ev w w' -> wf w'.
Proof.
  intros W Sub D.
  constructor; rewrite ?(d_listeners _ _ _ _ D), ?(d_chans _ _ _ _ D),
    ?(d_scopes _ _ _ _ D); try apply W.
  intros l Hl. rewrite (d_closed _ _ _ _ D), (d_cancelled _ _ _ _ D).
  rewrite !orb_true_iff. intros [H | H].
  - left. by apply (wf_closed _ W).
  - right. apply hit_ok_true in H as (l' & Hl' & Hf & E).
    apply hit_ctx_true. exists l'. repeat split; try done.
    f_equal. eapply fmap_inj_in; [apply (wf_ok_inj _ W) | done | by apply Sub | done].
Qed.

(** A listener fires in the world it is visited in exactly when it would
    have fired when the delivery began: the listeners visited before it
    release only their own scope. *)
Lemma fires_after_visit l l' ev w w1 :
  delivered [l] ev w w1 -> l_ctx l' <> l_ctx l -> fires l' ev w1 = fires l' ev w.
Proof.
  intros D Hne. unfold fires, scope_done.
  rewrite (d_cancelled _ _ _ _ D), (d_ctx _ _ _ _ D).
  unfold hit_ctx; simpl. rewrite (bool_decide_eq_false_2 _ Hne).
  rewrite andb_false_r; simpl. rewrite orb_false_r.
  f_equal. destruct (l_is l') as [name], ev as [e|k]; simpl; [|done].
  by rewrite (d_frame _ _ _ _ D).
Qed.

Lemma dispatch_spec ls ev : forall w,
  wf w -> ls ⊆ listeners w -> NoDup (l_ctx <$> ls) ->
  exists w', dispatch ls ev w = Done tt w' /\ delivered ls ev w w'.
Proof.
  induction ls as [|l ls IH]; intros w W Sub ND.
  - exists w. split; [done|].
    constructor; try done; intros; simpl; by rewrite orb_false_r.
  - simpl in ND. apply NoDup_cons in ND as [Nl ND].
    assert (Hl : l ∈ listeners w) by (apply Sub, list_elem_of_here).
    assert (Sub' : ls ⊆ listeners w).
    { intros x Hx. by apply Sub, list_elem_of_further. }
    destruct (visit_spec l ev w W Hl) as (w1 & E1 & D1).
    assert (W1 : wf w1).
    { eapply delivered_wf; [exact W | | exact D1].
      intros x Hx. apply list_elem_of_singleton in Hx. by subst. }
    destruct (IH w1 W1) as (w' & E2 & D2); [by rewrite (d_listeners _ _ _ _ D1) | done |].
    exists w'. split.
    { simpl. unfold bind. by rewrite E1. }
    assert (Hf : forall x, x ∈ ls -> fires x ev w1 = fires x ev w).
    { intros x Hx. eapply fires_after_visit; [exact D1|].
      intros E. apply Nl. rewrite <- E. by apply list_elem_of_fmap_2. }
    constructor.
    + by rewrite (d_listeners _ _ _ _ D2), (d_listeners _ _ _ _ D1).
    + by rewrite (d_ctx _ _ _ _ D2), (d_ctx _ _ _ _ D1).
    + by rewrite (d_frame _ _ _ _ D2), (d_frame _ _ _ _ D1).
    + by rewrite (d_chans _ _ _ _ D2), (d_chans _ _ _ _ D1).
    + by rewrite (d_scopes _ _ _ _ D2), (d_scopes _ _ _ _ D1).
    + intros c. rewrite (d_closed _ _ _ _ D2), (d_closed _ _ _ _ D1).
      unfold hit_ok; simpl. rewrite orb_false_r, <- orb_assoc. do 2 f_equal.
      apply existsb_ext_in. intros x Hx. by rewrite Hf.
    + intros s. rewrite (d_cancelled _ _ _ _ D2), (d_cancelled _ _ _ _ D1).
      unfold hit_ctx; simpl. rewrite orb_false_r, <- orb_assoc. do 2 f_equal.
      apply existsb_ext_in. intros x Hx. by rewrite Hf.
Qed.

(** Every step of the other goroutines runs to completion on a well-formed
    world and leaves it well-formed. *)
Lemma step_spec s w :
  wf w -> exists w', step s w = Done tt w' /\ wf w' /\ grows w w'.
Proof.
  intros W. destruct s as [ev | e | f | c]; simpl.
  - destruct (dispatch_spec (listeners w) ev w W) as (w' & E & D);
      [done | apply W |].
    exists w'. split; [done|]. split.
    + by eapply delivered_wf.
    + by eapply delivered_grows.
  - eexists. split; [reflexivity|].
    destruct (ctx_err w) eqn:Hc.
    + split; [done | apply grows_refl].
    + split.
      * constructor; simpl; apply W.
      * constructor; simpl; try done. congruence.
  - unfold write_cur. destruct (executor w) as [[cu [|n]]|];
      (eexists; split; [reflexivity|]); (split; [|by constructor]); try done.
    constructor; simpl; apply W.
  - unfold cancel. eexists. split; [reflexivity|].
    assert (Hm : forall s, cancelled w s = true ->
                 cancelled (set_scopes (<[c:=true]> (scopes w)) w) s = true).
    { intros s. unfold cancelled; simpl.
      destruct (decide (s = c)) as [->|Hne].
      - destruct (scopes w !! c) eqn:Hs; [|done].
        rewrite list_lookup_insert_eq; [done|]. by eapply lookup_lt_Some.
      - by rewrite list_lookup_insert_ne. }
    split.
    + constructor; simpl; rewrite ?length_insert; try apply W.
      intros l Hl Hcl. apply Hm. by apply (wf_closed _ W).
    + constructor; simpl; rewrite ?length_insert; try done.
Qed.

Lemma steps_spec ss : forall w,
  wf w -> exists w', steps ss w = Done tt w' /\ wf w' /\ grows w w'.
Proof.
  induction ss as [|s ss IH]; intros w W; simpl.
  - exists w. split; [done|]. split; [done | apply grows_refl].
  - unfold bind. destruct (step_spec s w W) as (w1 & -> & W1 & G1).
    destruct (IH w1 W1) as (w' & E & W' & G').
    exists w'. split; [done|]. split; [done|]. by eapply grows_trans.
Qed.

Lemma steps_app ss1 ss2 w w1 :
  steps ss1 w = Done tt w1 -> steps (ss1 ++ ss2) w = steps ss2 w1.
Proof.
  revert w. induction ss1 as [|s ss1 IH]; intros w; simpl.
  - unfold ret. by intros [= ->].
  - unfold bind. destruct (step s w) as [[] w'| |]; try done. apply IH.
Qed.

(** A channel goes from open to closed only in a delivery, and only
    because a subscribed listener that owns it accepted the event. *)
Lemma step_closes s w w' c :
  wf w -> step s w = Done tt w' -> closed w c = false -> closed w' c = true ->
  exists ev l, s = Deliver ev /\ l ∈ listeners w /\ l_ok l = c /\ fires l ev w = true.
Proof.
  intros W E H0 H1. destruct s as [ev | e | f | s]; simpl in E.
  - destruct (dispatch_spec (listeners w) ev w W) as (w1 & E1 & D);
      [done | apply W |].
    rewrite E1 in E. injection E as <-.
    rewrite (d_closed _ _ _ _ D), H0 in H1. simpl in H1.
    apply hit_ok_true in H1 as (l & Hl & Hf & ->). by exists ev, l.
  - injection E as <-. unfold closed in *.
    destruct (ctx_err w); simpl in *; congruence.
  - unfold write_cur in E. unfold closed in *.
    destruct (executor w) as [[cu [|n]]|]; injection E as <-; simpl in *; congruence.
  - unfold cancel in E. injection E as <-. unfold closed in *; simpl in *. congruence.
Qed.

Lemma steps_closes ss : forall w w' c,
  wf w -> steps ss w = Done tt w' -> closed w c = false -> closed w' c = true ->
  exists s1 ev s2 wa l,
    ss = s1 ++ Deliver ev :: s2 /\ steps s1 w = Done tt wa /\
    l ∈ listeners wa /\ l_ok l = c /\ fires l ev wa = true.
Proof.
  induction ss as [|s ss IH]; intros w w' c W E H0 H1; simpl in E.
  - injection E as <-. congruence.
  - unfold bind in E. destruct (step_spec s w W) as (w1 & E1 & W1 & G1).
    rewrite E1 in E. destruct (closed w1 c) eqn:Hc.
    + destruct (step_closes s w w1 c W E1 H0 Hc) as (ev & l & -> & Hl & Hok & Hf).
      exists [], ev, ss, w, l. by repeat split.
    + destruct (IH w1 w' c W1 E Hc H1) as (s1 & ev & s2 & wa & l & -> & Es & Hl & Hok & Hf).
      exists (s :: s1), ev, s2, wa, l. repeat split; try done.
      simpl. unfold bind. by rewrite E1.
Qed.

Lemma expectEvent_eq is_ p :
  expectEvent is_ p
  = Done (Expect (length (chans (world p))), length (scopes (world p))) (arm is_ p).
Proof. reflexivity. Qed.

Lemma closed_app_fresh w c b :
  closed (set_chans (chans w ++ [b]) w) c
  = if decide (c = length (chans w)) then b else closed w c.
Proof.
  unfold closed; simpl. case_decide as E.
  - subst. by rewrite lookup_app_r, Nat.sub_diag.
  - destruct (decide (c < length (chans w))%nat).
    + by rewrite lookup_app_l.
    + rewrite !lookup_ge_None_2; [done | lia |]. rewrite length_app; simpl. lia.
Qed.

Lemma arm_wf is_ p : wf (world p) -> wf (world (arm is_ p)).
Proof.
  intros W. unfold arm; simpl.
  set (l0 := mkListener _ _).
  assert (Hin : forall l, l ∈ listeners (world p) ++ [l0] ->
                          l ∈ listeners (world p) \/ l = l0).
  { intros l Hl. apply elem_of_app in Hl as [Hl|Hl]; [by left|].
    apply list_elem_of_singleton in Hl. by right. }
  constructor; simpl.
  - intros l Hl. destruct (Hin l Hl) as [H | ->]; [by apply W | done].
  - intros l Hl. rewrite length_app; simpl.
    destruct (Hin l Hl) as [H | ->]; [apply (wf_chan _ W) in H | unfold l_ok; simpl]; lia.
  - intros l Hl. rewrite length_app; simpl.
    destruct (Hin l Hl) as [H | ->]; [apply (wf_scope _ W) in H | simpl]; lia.
  - rewrite fmap_app. apply NoDup_app. split; [apply W|]. split; [|apply NoDup_singleton].
    intros c Hc Hc'. simpl in Hc'. apply list_elem_of_singleton in Hc'. subst c.
    apply list_elem_of_fmap in Hc as (l & E & Hl).
    apply (wf_chan _ W) in Hl. unfold l_ok in E at 1; simpl in E. lia.
  - rewrite fmap_app. apply NoDup_app. split; [apply W|]. split; [|apply NoDup_singleton].
    intros c Hc Hc'. simpl in Hc'. apply list_elem_of_singleton in Hc'. subst c.
    apply list_elem_of_fmap in Hc as (l & E & Hl).
    apply (wf_scope _ W) in Hl. simpl in E. lia.
  - intros l Hl. unfold closed, cancelled; simpl.
    destruct (Hin l Hl) as [H | ->].
    + pose proof (wf_chan _ W l H). pose proof (wf_scope _ W l H).
      rewrite !lookup_app_l by done. by apply (wf_closed _ W).
    + unfold l_ok; simpl. by rewrite lookup_app_r, Nat.sub_diag.
Qed.

Lemma arm_fresh is_ p :
  let w := world (arm is_ p) in
  closed w (length (chans (world p))) = false /\
  cancelled w (length (scopes (world p))) = false /\
  mkListener (length (scopes (world p)))
             (Listen is_ (length (chans (world p))) (length (scopes (world p))))
    ∈ listeners w.
Proof.
  unfold arm, closed, cancelled; simpl.
  rewrite !lookup_app_r, !Nat.sub_diag by done. repeat split.
  apply elem_of_app. right. apply list_elem_of_singleton. done.
Qed.

Lemma apply_is_true is_ ev w :
  result (apply_is is_ ev w) = Some true <-> matches is_ ev w = true.
Proof.
  destruct (apply_is_spec is_ ev w) as (w' & -> & _). simpl.
  split; congruence.
Qed.

Lemma select_nil ok pick w : select ok pick w = Some None -> closed w ok = true.
Proof.
  unfold select. destruct (closed w ok), (ctx_err w); try done.
Qed.

Lemma select_err ok pick w e :
  select ok pick w = Some (Some e) -> ctx_err w = Some e.
Proof.
  unfold select. destruct (closed w ok), (ctx_err w), pick; congruence.
Qed.

Lemma block_ready ok pick sched w r :
  select ok pick w = Some r -> block ok pick sched w = Done (r, sched) w.
Proof. intros H. destruct sched; simpl; by rewrite H. Qed.

Lemma block_spec ok pick sched : forall w r rest w',
  block ok pick sched w = Done (r, rest) w' ->
  exists consumed, sched = consumed ++ rest /\ steps consumed w = Done tt w' /\
                   select ok pick w' = Some r.
Proof.
  induction sched as [|s sched IH]; intros w r rest w'; simpl.
  - destruct (select ok pick w) eqn:Hs; [|done].
    intros [= -> -> ->]. by exists [].
  - destruct (select ok pick w) eqn:Hs.
    + intros [= -> -> ->]. by exists [].
    + destruct (step s w) as [[] w1| |] eqn:E1; try done.
      intros H. apply IH in H as (consumed & -> & Es & Hsel).
      exists (s :: consumed). repeat split; try done.
      simpl. unfold bind. by rewrite E1.
Qed.

(** On a well-formed world [expect] never panics: it returns, or it is left
    blocked with neither case ready and nothing more to come. *)
Lemma block_total ok pick sched : forall w,
  wf w ->
  (exists r rest w', block ok pick sched w = Done (r, rest) w') \/
  (exists w', block ok pick sched w = Blocked w' /\ steps sched w = Done tt w' /\
              select ok pick w' = None).
Proof.
  induction sched as [|s sched IH]; intros w W; simpl.
  - destruct (select ok pick w) eqn:Hs; [left; eauto | right; eauto].
  - destruct (select ok pick w) eqn:Hs; [left; eauto|].
    unfold bind. destruct (step_spec s w W) as (w1 & -> & W1 & _). by apply IH.
Qed.

Lemma wait_eq ok p :
  wait (Expect ok) p =
  match block ok (coin p) (pending p) (world p) with
  | Done (r, rest) w => Done r (set_pending rest (set_world w (record (CExpect ok) p)))
  | Panic msg w => Panic msg (set_world w (record (CExpect ok) p))
  | Blocked w => Blocked (set_world w (record (CExpect ok) p))
  end.
Proof.
  unfold wait, bind, shared; simpl.
  by destruct (block ok (coin p) (pending p) (world p)) as [[r rest] w| |].
Qed.

(** The listener of a barrier is the only one that writes its channel. *)
Lemma owner_unique w l is_ ok release :
  wf w -> mkListener release (Listen is_ ok release) ∈ listeners w ->
  l ∈ listeners w -> l_ok l = ok -> l = mkListener release (Listen is_ ok release).
Proof.
  intros W H0 Hl E. eapply fmap_inj_in; [apply (wf_ok_inj _ W) | done | done | done].
Qed.

Lemma fires_owner is_ ok release ev w :
  fires (mkListener release (Listen is_ ok release)) ev w = true <->
  scope_done w release = false /\ result (apply_is is_ ev w) = Some true.
Proof.
  unfold fires; simpl. rewrite andb_true_iff, negb_true_iff.
  unfold l_is; simpl. by rewrite apply_is_true.
Qed.

(** ** The barrier *)

(** C3: for a barrier armed by [expectLifecycleEvent], [expect()] returns
    nil only if the predicate accepted an event that was delivered to the
    still-subscribed listener at some point after arming; an error it
    returns is the error of the governing context; and when the governing
    context is done while no event has matched, [expect()] returns, with
    exactly that context's error. *)
Theorem wait_nil_only_after_match_else_ctx_err
  (p0 p1 p2 : Proc) (name : string) (ok : chan) (release : CancelFunc)
  (tr : list Step) :
  wf (world p0) ->
  expectLifecycleEvent name p0 = Done (Expect ok, release) p1 ->
  steps tr (world p1) = Done tt (world p2) ->
  (forall r p3, wait (Expect ok) p2 = Done r p3 ->
     exists consumed, pending p2 = consumed ++ pending p3 /\
       match r with
       | None =>
           exists s1 ev s2 wa,
             tr ++ consumed = s1 ++ Deliver ev :: s2 /\
             steps s1 (world p1) = Done tt wa /\
             scope_done wa release = false /\
             result (apply_is (IsLifecycle name) ev wa) = Some true
       | Some e => ctx_err (world p3) = Some e
       end) /\
  (forall e, ctx_err (world p2) = Some e -> closed (world p2) ok = false ->
     exists p3, wait (Expect ok) p2 = Done (Some e) p3).
Proof.
  intros W0 Harm Htr.
  unfold expectLifecycleEvent in Harm. rewrite expectEvent_eq in Harm.
  injection Harm as <- <- <-.
  pose proof (arm_wf (IsLifecycle name) p0 W0) as W1.
  destruct (arm_fresh (IsLifecycle name) p0) as (Hopen & _ & Hin).
  set (p1 := arm (IsLifecycle name) p0) in *.
  set (ok := length (chans (world p0))) in *.
  set (release := length (scopes (world p0))) in *.
  split.
  - intros r p3 Hw. rewrite wait_eq in Hw.
    destruct (block ok (coin p2) (pending p2) (world p2)) as [[r' rest] w3| |] eqn:Hb;
      try done.
    injection Hw as -> <-. simpl.
    apply block_spec in Hb as (consumed & Hp & Hs & Hsel).
    exists consumed. split; [done|].
    destruct r as [e|].
    + by apply select_err in Hsel.
    + apply select_nil in Hsel.
      assert (Hall : steps (tr ++ consumed) (world p1) = Done tt w3).
      { by rewrite (steps_app _ _ _ _ Htr). }
      destruct (steps_closes _ _ _ _ W1 Hall Hopen Hsel)
        as (s1 & ev & s2 & wa & l & E & Es & Hl & Hok & Hf).
      destruct (steps_spec s1 _ W1) as (wa' & Es' & Wa & Ga).
      rewrite Es in Es'. injection Es' as <-.
      rewrite <- (g_listeners _ _ Ga) in Hin.
      rewrite (owner_unique _ _ _ _ _ Wa Hin Hl Hok) in Hf.
      apply fires_owner in Hf as [Hd Hm].
      by exists s1, ev, s2, wa.
  - intros e He Hc. rewrite wait_eq.
    rewrite (block_ready _ _ _ _ (Some e)); [by eexists|].
    unfold select. by rewrite Hc, He.
Qed.

Lemma deliver_match p_is ok release ev w :
  wf w -> mkListener release (Listen p_is ok release) ∈ listeners w ->
  scope_done w release = false -> result (apply_is p_is ev w) = Some true ->
  closed w ok = false /\
  exists w', step (Deliver ev) w = Done tt w' /\ wf w' /\ grows w w' /\
             ctx_err w' = ctx_err w /\
             closed w' ok = true /\ cancelled w' release = true.
Proof.
  intros W Hin Hd Hm.
  assert (Hf : fires (mkListener release (Listen p_is ok release)) ev w = true)
    by by apply fires_owner.
  split.
  { destruct (closed w ok) eqn:Hc; [|done].
    apply (wf_closed _ W _ Hin) in Hc. simpl in Hc.
    unfold scope_done in Hd. by rewrite Hc in Hd. }
  simpl. destruct (dispatch_spec (listeners w) ev w W) as (w' & E & D);
    [done | apply W |].
  exists w'. split; [done|]. split; [by eapply delivered_wf|].
  split; [by eapply delivered_grows|]. split; [apply D|].
  rewrite (d_closed _ _ _ _ D), (d_cancelled _ _ _ _ D). split.
  - apply orb_true_iff. right. apply hit_ok_true. eauto.
  - apply orb_true_iff. right. apply hit_ctx_true. eauto.
Qed.

(** C4: whatever happens after arming -- any number of calls of
    [release()], before or after a match, and any deliveries, matching or
    not -- no step panics, and closing a closed channel would; the first
    event the predicate accepts while the listener is subscribed closes
    the channel and cancels the listener's scope; from then on the
    dispatcher skips the listener, so [close(ok)] is not reached again, and
    the channel stays closed. *)
Theorem completion_signal_closed_at_most_once
  (p0 p1 : Proc) (p_is : isExpectedEvent) (ok : chan) (release : CancelFunc)
  (tr : list Step) :
  wf (world p0) ->
  expectEvent p_is p0 = Done (Expect ok, release) p1 ->
  exists w2,
    steps tr (world p1) = Done tt w2 /\
    (forall ev,
        scope_done w2 release = false ->
        result (apply_is p_is ev w2) = Some true ->
        closed w2 ok = false /\
        exists w3, step (Deliver ev) w2 = Done tt w3 /\
                   closed w3 ok = true /\ cancelled w3 release = true) /\
    (closed w2 ok = true ->
        cancelled w2 release = true /\
        (forall ev, visit (mkListener release (Listen p_is ok release)) ev w2
                    = Done tt w2) /\
        (forall tr', exists w3, steps tr' w2 = Done tt w3 /\
                                closed w3 ok = true /\ cancelled w3 release = true)) /\
    steps [CallRelease release; CallRelease release] w2
    = steps [CallRelease release] w2.
Proof.
  intros W0 Harm. rewrite expectEvent_eq in Harm. injection Harm as <- <- <-.
  pose proof (arm_wf p_is p0 W0) as W1.
  destruct (arm_fresh p_is p0) as (_ & _ & Hin).
  set (p1 := arm p_is p0) in *.
  set (ok := length (chans (world p0))) in *.
  set (release := length (scopes (world p0))) in *.
  destruct (steps_spec tr _ W1) as (w2 & E2 & W2 & G2).
  rewrite <- (g_listeners _ _ G2) in Hin.
  exists w2. split; [done|]. split; [|split].
  - intros ev Hd Hm.
    destruct (deliver_match _ _ _ _ _ W2 Hin Hd Hm) as (Hc & w3 & E3 & _ & _ & _ & H3 & H4).
    split; [done|]. by exists w3.
  - intros Hc.
    assert (Hx : cancelled w2 release = true) by apply (wf_closed _ W2 _ Hin Hc).
    split; [done|]. split.
    + intros ev. unfold visit, scope_done; simpl. by rewrite Hx.
    + intros tr'. destruct (steps_spec tr' _ W2) as (w3 & E3 & _ & G3).
      exists w3. split; [done|]. split.
      * by apply (g_closed _ _ G3).
      * by apply (g_cancelled _ _ G3).
  - simpl. unfold bind, cancel, ret; simpl. by rewrite list_insert_insert_eq.
Qed.

(** C8: a matching event and the end of the governing context race.  If the
    event is delivered first, [expect()] returns nil or the context's
    error, as [select] picks; if the context ends first, the listener's
    scope is done, the event no longer reaches it, and [expect()] returns
    the context's error.  In both orders, before or during the wait,
    [expect()] returns, and returns one of the two.  And once the governing
    context is done [expect()] returns in every reachable world. *)
Theorem cancellation_race_one_outcome
  (p0 p1 : Proc) (p_is : isExpectedEvent) (ok : chan) (release : CancelFunc)
  (tr : list Step) (w2 : World) (ev : Event) (e : error) :
  wf (world p0) ->
  expectEvent p_is p0 = Done (Expect ok, release) p1 ->
  steps tr (world p1) = Done tt w2 ->
  scope_done w2 release = false ->
  result (apply_is p_is ev w2) = Some true ->
  (exists w3, steps [Deliver ev; CtxEnd e] w2 = Done tt w3 /\
     forall p, exists p',
       wait (Expect ok) (set_world w3 p)
       = Done (if coin p then None else Some e) p') /\
  (exists w3, steps [CtxEnd e; Deliver ev] w2 = Done tt w3 /\
     forall p, exists p', wait (Expect ok) (set_world w3 p) = Done (Some e) p') /\
  (forall p rest, exists p',
     wait (Expect ok) (set_pending (Deliver ev :: CtxEnd e :: rest) (set_world w2 p))
     = Done None p' /\ pending p' = CtxEnd e :: rest) /\
  (forall p rest, exists p',
     wait (Expect ok) (set_pending (CtxEnd e :: Deliver ev :: rest) (set_world w2 p))
     = Done (Some e) p' /\ pending p' = Deliver ev :: rest) /\
  (forall tr' w3 e' p,
     steps tr' w2 = Done tt w3 -> ctx_err w3 = Some e' ->
     exists r p', wait (Expect ok) (set_world w3 p) = Done r p' /\
                  (r = Some e' \/ r = None /\ closed w3 ok = true)).
Proof.
  intros W0 Harm Htr Hd Hm.
  rewrite expectEvent_eq in Harm. injection Harm as <- <- <-.
  pose proof (arm_wf p_is p0 W0) as W1.
  destruct (arm_fresh p_is p0) as (_ & _ & Hin).
  set (p1 := arm p_is p0) in *.
  set (ok := length (chans (world p0))) in *.
  set (release := length (scopes (world p0))) in *.
  destruct (steps_spec tr _ W1) as (w2' & E2 & W2 & G2).
  rewrite Htr in E2. injection E2 as <-.
  rewrite <- (g_listeners _ _ G2) in Hin.
  assert (Hlive : ctx_err w2 = None).
  { unfold scope_done in Hd. apply orb_false_iff in Hd as [_ Hd].
    apply bool_decide_eq_false in Hd. destruct (ctx_err w2); [|done].
    exfalso. apply Hd. eauto. }
  destruct (deliver_match _ _ _ _ _ W2 Hin Hd Hm)
    as (Hopen & wd & Ed & Wd & Gd & Hcd & Hcl & Hcan).
  (* the world after the context ended first *)
  set (wc := set_ctx_err (Some e) w2).
  assert (Ec : step (CtxEnd e) w2 = Done tt wc) by (simpl; by rewrite Hlive).
  destruct (step_spec (CtxEnd e) w2 W2) as (wc' & Ec' & Wc & Gc).
  rewrite Ec in Ec'. injection Ec' as <-.
  destruct (step_spec (Deliver ev) wc Wc) as (wcd & Ecd & Wcd & Gcd).
  assert (Hcd_open : closed wcd ok = false).
  { destruct (closed wcd ok) eqn:Hc; [|done].
    destruct (step_closes _ _ _ _ Wc Ecd Hopen Hc) as (ev' & l & _ & _ & _ & Hf).
    unfold fires, scope_done, wc in Hf. simpl in Hf.
    by rewrite orb_true_r in Hf. }
  assert (Hcd_err : ctx_err wcd = Some e) by (by apply (g_ctx _ _ Gcd)).
  split; [|split; [|split; [|split]]].
  - exists (set_ctx_err (Some e) wd). split.
    + cbn [steps]. unfold bind. rewrite Ed. simpl. by rewrite Hcd, Hlive.
    + intros p. rewrite wait_eq. simpl.
      rewrite (block_ready _ _ _ _ (if coin p then None else Some e)); [by eexists|].
      unfold select, closed in *; simpl. by rewrite Hcl.
  - exists wcd. split.
    + cbn [steps]. unfold bind. rewrite Ec. by rewrite Ecd.
    + intros p. rewrite wait_eq. simpl.
      rewrite (block_ready _ _ _ _ (Some e)); [by eexists|].
      unfold select. by rewrite Hcd_open, Hcd_err.
  - intros p rest. rewrite wait_eq. simpl.
    unfold select at 1. rewrite Hopen, Hlive.
    change (dispatch (listeners w2) ev w2) with (step (Deliver ev) w2). rewrite Ed.
    assert (Hs : select ok (coin p) wd = Some None).
    { unfold select. by rewrite Hcl, Hcd, Hlive. }
    rewrite Hs. eexists; split; reflexivity.
  - intros p rest. rewrite wait_eq. simpl.
    unfold select at 1. rewrite Hopen, Hlive.
    assert (Hs : select ok (coin p) (set_ctx_err (Some e) w2) = Some (Some e)).
    { unfold select, closed in *; simpl. by rewrite Hopen. }
    rewrite Hs. eexists; split; reflexivity.
  - intros tr' w3 e' p E3 He'. rewrite wait_eq. simpl.
    destruct (closed w3 ok) eqn:Hc.
    + rewrite (block_ready _ _ _ _ (if coin p then None else Some e')).
      * eexists _, _. split; [reflexivity|]. destruct (coin p); auto.
      * unfold select. by rewrite Hc, He'.
    + rewrite (block_ready _ _ _ _ (Some e')).
      * eexists _, _. split; [reflexivity|]. auto.
      * unfold select. by rewrite Hc, He'.
Qed.

(** ** The frame identity *)

Lemma navigatedFrameID_balanced_no_target w :
  executor w = NotTarget -> navigatedFrameID w = Done "" w.
Proof. unfold navigatedFrameID. by intros ->. Qed.

Lemma navigatedFrameID_balanced_frame w f n :
  executor w = IsTarget (mkTarget (Some f) n) ->
  navigatedFrameID w = Done (cdp.ID f) w.
Proof.
  unfold navigatedFrameID. intros E. rewrite E. simpl.
  f_equal. destruct w; simpl in *. by subst.
Qed.

(** C10 fails on the code: with a target whose current frame is nil,
    [navigatedFrameID] returns the empty identity holding one read lock
    more than before the call, and from then on the writer of [cur] never
    gets the write lock. *)
Theorem navigatedFrameID_nil_cur_keeps_read_lock (w : World) (n : nat) :
  let w0 := set_executor (IsTarget (mkTarget None n)) w in
  result (navigatedFrameID w0) = Some "" /\
  readers (final (navigatedFrameID w0)) = S (readers w0) /\
  forall f, write_cur f (final (navigatedFrameID w0))
            = Done tt (final (navigatedFrameID w0)).
Proof. by repeat split. Qed.

(** C5: the closure [is] of [expectLifecycleEvent] always returns; it
    returns true exactly for a lifecycle event whose name is the requested
    one and whose frame identifier is what [navigatedFrameID] returns; an
    event with the right name and another frame identifier is rejected;
    the navigation actions arm their barrier with the name "load"; and
    what [navigatedFrameID] returns is the identifier of the target's
    current frame: with a target whose current frame is [f] the predicate
    accepts exactly the lifecycle events of that name for frame [f], and
    with no target or no current frame exactly those whose frame
    identifier is empty. *)
Theorem lifecycle_predicate_iff (name : string) (i : Event) (w : World) :
  (exists b w', apply_is (IsLifecycle name) i w = Done b w') /\
  (result (apply_is (IsLifecycle name) i w) = Some true <->
   exists e, i = LifecycleEvent e /\ page.Name e = name /\
             result (navigatedFrameID w) = Some (page.FrameID e)) /\
  (forall e, page.Name e = name ->
             result (navigatedFrameID w) <> Some (page.FrameID e) ->
             result (apply_is (IsLifecycle name) (LifecycleEvent e) w) = Some false) /\
  (forall p, exists ok release p',
      expectLifecycleLoaded p = Done (Expect ok, release) p' /\
      mkListener release (Listen (IsLifecycle "load") ok release)
        ∈ listeners (world p')) /\
  (forall t f, executor w = IsTarget t -> cur t = Some f ->
      result (navigatedFrameID w) = Some (cdp.ID f) /\
      (result (apply_is (IsLifecycle name) i w) = Some true <->
       exists e, i = LifecycleEvent e /\ page.Name e = name /\
                 page.FrameID e = cdp.ID f) /\
      (forall e, page.Name e = name -> page.FrameID e <> cdp.ID f ->
         result (apply_is (IsLifecycle name) (LifecycleEvent e) w) = Some false)) /\
  (executor w = NotTarget \/ (exists t, executor w = IsTarget t /\ cur t = None) ->
      result (navigatedFrameID w) = Some "" /\
      (result (apply_is (IsLifecycle name) i w) = Some true <->
       exists e, i = LifecycleEvent e /\ page.Name e = name /\
                 page.FrameID e = "")).
Proof.
  assert (Hiff : result (apply_is (IsLifecycle name) i w) = Some true <->
                 exists e, i = LifecycleEvent e /\ page.Name e = name /\
                           page.FrameID e = frame_identity w).
  { rewrite apply_is_true. destruct i as [e|k]; simpl.
    - rewrite andb_true_iff, !String.eqb_eq. split.
      + intros [H1 H2]. by exists e.
      + intros (e' & [= <-] & H1 & H2). by split.
    - split; [done|]. by intros (e & H & _). }
  assert (Hid : result (navigatedFrameID w) = Some (frame_identity w)).
  { by destruct (navigatedFrameID_spec w) as (w' & -> & _). }
  split; [|split; [|split; [|split; [|split]]]].
  - destruct (apply_is_spec (IsLifecycle name) i w) as (w' & E & _). eauto.
  - rewrite Hiff, Hid. split; intros (e & H1 & H2 & H3); exists e;
      repeat split; congruence.
  - intros e Hn Hf.
    destruct (apply_is_spec (IsLifecycle name) (LifecycleEvent e) w) as (w' & -> & _).
    rewrite Hid in Hf.
    simpl in *. do 2 f_equal. apply andb_false_iff. right.
    apply String.eqb_neq. congruence.
  - intros p. unfold expectLifecycleLoaded, expectLifecycleEvent.
    rewrite expectEvent_eq. eexists _, _, _. split; [reflexivity|].
    apply arm_fresh.
  - intros t f Ht Hf.
    assert (Hfi : frame_identity w = cdp.ID f).
    { unfold frame_identity. by rewrite Ht, Hf. }
    split; [by rewrite Hid, Hfi|]. split; [by rewrite Hiff, Hfi|].
    intros e Hn Hne.
    destruct (apply_is_spec (IsLifecycle name) (LifecycleEvent e) w) as (w' & -> & _).
    simpl. do 2 f_equal. apply andb_false_iff. right.
    apply String.eqb_neq. congruence.
  - intros H.
    assert (Hfi : frame_identity w = "").
    { unfold frame_identity. destruct H as [-> | (t & -> & ->)]; done. }
    split; [by rewrite Hid, Hfi | by rewrite Hiff, Hfi].
Qed.

(** C1 fails: arm while the current frame is A, let the target move to
    frame B, and the barrier accepts the "load" of frame B. *)
Lemma frame_fixed_at_arm_counterexample :
  ~ frame_fixed_at_arm (proc0 [] []) "load" [SetCur (Some frameB)] (load "B").
Proof.
  intros H.
  specialize (H 0%nat 0%nat _ _ (IsLifecycle "load") true eq_refl eq_refl eq_refl eq_refl).
  discriminate H.
Qed.

Lemma find_owner (ls : list cancelableListener) l :
  NoDup (l_ok <$> ls) -> l ∈ ls ->
  List.find (fun x => Nat.eqb (l_ok x) (l_ok l)) ls = Some l.
Proof.
  induction ls as [|a ls IH]; simpl; intros ND Hl.
  - by apply elem_of_nil in Hl.
  - apply NoDup_cons in ND as [Na ND].
    apply elem_of_cons in Hl as [-> | Hl].
    + by rewrite Nat.eqb_refl.
    + destruct (Nat.eqb (l_ok a) (l_ok l)) eqn:E; [|by apply IH].
      apply Nat.eqb_eq in E. exfalso. apply Na. rewrite E.
      by apply list_elem_of_fmap_2.
Qed.

(** C1 as the code has it: arming reads no frame identity (it leaves the
    executor, and with it the read lock, as it found them), and the
    barrier keeps the predicate it was armed with.  An evaluation of that
    predicate on a lifecycle event of the requested name is a call of
    [navigatedFrameID] in the world of the evaluation, followed by the
    comparison of the event's frame identifier with the identifier that
    call returns: the one of the target's current frame at that moment.
    On any other event the predicate returns false without reading the
    frame identity. *)
Theorem frame_identity_read_at_each_evaluation
  (p0 p1 : Proc) (name : string) (ok : chan) (release : CancelFunc)
  (tr : list Step) (w2 : World) :
  wf (world p0) ->
  expectLifecycleEvent name p0 = Done (Expect ok, release) p1 ->
  steps tr (world p1) = Done tt w2 ->
  executor (world p1) = executor (world p0) /\
  exists p_is,
    predicate_of w2 ok = Some p_is /\ p_is = IsLifecycle name /\
    forall i,
      match i with
      | LifecycleEvent e =>
          if String.eqb (page.Name e) name
          then exists w3,
                 navigatedFrameID w2 = Done (frame_identity w2) w3 /\
                 apply_is p_is i w2
                 = Done (String.eqb (page.FrameID e) (frame_identity w2)) w3
          else apply_is p_is i w2 = Done false w2
      | OtherEvent _ => apply_is p_is i w2 = Done false w2
      end.
Proof.
  intros W0 Harm Htr.
  unfold expectLifecycleEvent in Harm. rewrite expectEvent_eq in Harm.
  injection Harm as <- <- <-.
  pose proof (arm_wf (IsLifecycle name) p0 W0) as W1.
  destruct (arm_fresh (IsLifecycle name) p0) as (_ & _ & Hin).
  destruct (steps_spec tr _ W1) as (w2' & E2 & W2 & G2).
  rewrite Htr in E2. injection E2 as <-.
  rewrite <- (g_listeners _ _ G2) in Hin.
  split; [done|]. exists (IsLifecycle name). split; [|split; [done|]].
  - unfold predicate_of.
    pose proof (find_owner _ _ (wf_ok_inj _ W2) Hin) as F.
    unfold l_ok at 2 in F; simpl in F. by rewrite F.
  - intros [e|k]; simpl; [|done].
    destruct (String.eqb (page.Name e) name); [|done].
    destruct (navigatedFrameID_spec w2) as (w3 & E3 & _).
    exists w3. split; [done|]. unfold bind. by rewrite E3.
Qed.

(** ** The actions *)

Lemma Navigate_eq urlstr : Navigate urlstr = orchestrate (page.Navigate urlstr).
Proof. reflexivity. Qed.

Lemma NavigateToHistoryEntry_eq entryID :
  NavigateToHistoryEntry entryID = orchestrate (page.NavigateToHistoryEntry entryID).
Proof. reflexivity. Qed.

Lemma Reload_eq : Reload = orchestrate page.Reload.
Proof. reflexivity. Qed.

Lemma Do_eq c p :
  Do c p =
  match replies p with
  | [] => Blocked (record (CDo c) p)
  | r :: rs =>
      match steps (during r) (world p) with
      | Done _ w => Done r (set_world w (set_replies rs (record (CDo c) p)))
      | Panic msg w => Panic msg (set_world w (set_replies rs (record (CDo c) p)))
      | Blocked w => Blocked (set_world w (set_replies rs (record (CDo c) p)))
      end
  end.
Proof.
  unfold Do, bind, shared; simpl. destruct (replies p) as [|r rs]; [done|].
  simpl. by destruct (steps (during r) (world p)) as [[] w| |].
Qed.

Lemma Do_wf c p r rs :
  wf (world p) -> replies p = r :: rs ->
  exists w, steps (during r) (world p) = Done tt w /\ wf w /\ grows (world p) w /\
            Do c p = Done r (set_world w (set_replies rs (record (CDo c) p))).
Proof.
  intros W E. destruct (steps_spec (during r) _ W) as (w & Es & Ww & G).
  exists w. repeat split; try done; try apply Ww; try apply G.
  by rewrite Do_eq, E, Es.
Qed.

Lemma index_cases entries i :
  (exists en, entries !! Z.to_nat i = Some (Some en) /\ 0 <= i /\
              index entries i = ret en) \/
  (exists msg, index entries i = panic msg).
Proof.
  unfold index. destruct (i <? 0) eqn:E; [right; eauto|].
  apply Z.ltb_ge in E.
  destruct (entries !! Z.to_nat i) as [[en|]|]; [left; eauto | right; eauto..].
Qed.

Lemma ordered_sound cs : forall armed,
  ordered armed cs = true ->
  forall i c, cs !! i = Some (CDo c) -> is_trigger c = true ->
    armed = true \/
    exists j l, (j < i)%nat /\ cs !! j = Some (CListen l) /\ is_load l = true.
Proof.
  induction cs as [|x cs IH]; intros armed H i c Hi Ht; [done|].
  destruct i as [|i]; simpl in Hi.
  - injection Hi as ->. simpl in H. rewrite Ht in H. simpl in H.
    apply andb_true_iff in H as [H _]. by left.
  - assert (Hx : exists a', ordered a' cs = true /\
                  (a' = true -> armed = true \/
                     exists l, x = CListen l /\ is_load l = true)).
    { destruct x as [l|c'| |]; simpl in H.
      - exists (armed || is_load l). split; [done|].
        intros Ha. apply orb_true_iff in Ha as [Ha|Ha]; [by left | right; eauto].
      - apply andb_true_iff in H as [_ H]. exists armed. split; [done | by left].
      - exists armed. split; [done | by left].
      - exists armed. split; [done | by left]. }
    destruct Hx as (a' & Ho & Ha).
    destruct (IH a' Ho i c Hi Ht) as [E | (j & l & Hj & Hl & Hload)].
    + destruct (Ha E) as [? | (l & -> & Hload)]; [by left|].
      right. exists 0%nat, l. repeat split; [lia | done..].
    + right. exists (S j), l. repeat split; [lia | done..].
Qed.

Local Opaque wait.

Lemma orchestrate_log c p :
  exists rest,
    log (final (orchestrate c p)) = log p ++ CListen (load_listener p) :: CDo c :: rest /\
    forall armed, ordered armed rest = true.
Proof.
  unfold orchestrate, expectLifecycleLoaded, expectLifecycleEvent, bind.
  rewrite expectEvent_eq. unfold defer, bind. rewrite Do_eq.
  unfold load_listener.
  destruct (replies (arm (IsLifecycle "load") p)) as [|r rs]; simpl.
  { exists []. rewrite <- app_assoc. by split. }
  destruct (steps (during r) _) as [[] w| |]; simpl;
    try (exists [CRelease (length (scopes (world p)))];
         rewrite <- !app_assoc; by split).
  - destruct (r_err r) as [e|]; simpl.
    + exists [CRelease (length (scopes (world p)))]. rewrite <- !app_assoc. by split.
    + rewrite wait_eq. simpl.
      destruct (block _ _ _ _) as [[r' rest] w'| |]; simpl;
        try (exists [CExpect (length (chans (world p)));
                     CRelease (length (scopes (world p)))];
             rewrite <- !app_assoc; by split).
      exists [CExpect (length (chans (world p)))]. rewrite <- !app_assoc. by split.
  - exists []. rewrite <- !app_assoc. by split.
Qed.

(** The steps of the other goroutines register no listener, on any
    world. *)
Lemma visit_listeners l ev w w' :
  visit l ev w = Done tt w' -> listeners w' = listeners w.
Proof.
  unfold visit. destruct (scope_done w (l_ctx l)); [by intros [= ->]|].
  destruct (l_fn l) as [q ok rel]. simpl. unfold bind.
  destruct (apply_is_spec q ev w) as (w1 & -> & L).
  destruct L as (_ & _ & _ & L & _).
  destruct (matches q ev w); [|by intros [= <-]].
  unfold close. destruct (chans w1 !! ok) as [[|]|]; try done.
  by intros [= <-].
Qed.

Lemma dispatch_listeners ls ev : forall w w',
  dispatch ls ev w = Done tt w' -> listeners w' = listeners w.
Proof.
  induction ls as [|l ls IH]; intros w w'; simpl.
  - by intros [= ->].
  - unfold bind. destruct (visit l ev w) as [[] w1| |] eqn:Ev; try done.
    intros Ed. rewrite (IH _ _ Ed). by eapply visit_listeners.
Qed.

Lemma step_listeners s w w' :
  step s w = Done tt w' -> listeners w' = listeners w.
Proof.
  destruct s as [ev|e|f|c]; simpl.
  - apply dispatch_listeners.
  - intros [= <-]. by destruct (ctx_err w).
  - unfold write_cur. by destruct (executor w) as [[cu [|n]]|]; intros [= <-].
  - by intros [= <-].
Qed.

Lemma steps_listeners ss : forall w w',
  steps ss w = Done tt w' -> listeners w' = listeners w.
Proof.
  induction ss as [|s ss IH]; intros w w'; simpl.
  - by intros [= ->].
  - unfold bind. destruct (step s w) as [[] w1| |] eqn:E1; try done.
    intros Es. rewrite (IH _ _ Es). by eapply step_listeners.
Qed.

Lemma NavigateBack_eq p :
  NavigateBack p =
  match Do page.GetNavigationHistory p with
  | Done h p1 =>
      match r_err h with
      | Some err => Done (Some err) p1
      | None =>
          if (r_cur h <=? 0) || (r_cur h >? Z.of_nat (length (r_entries h)) - 1)
          then Done (Some (errors_New "invalid navigation entry")) p1
          else to_entry (r_entries h) (r_cur h - 1) p1
      end
  | Panic msg p1 => Panic msg p1
  | Blocked p1 => Blocked p1
  end.
Proof.
  unfold NavigateBack, bind.
  destruct (Do page.GetNavigationHistory p) as [h p1| |]; try done.
  destruct (r_err h); [done|]. by destruct (_ || _).
Qed.

Lemma NavigateForward_eq p :
  NavigateForward p =
  match Do page.GetNavigationHistory p with
  | Done h p1 =>
      match r_err h with
      | Some err => Done (Some err) p1
      | None =>
          if (r_cur h <? 0) || (r_cur h >=? Z.of_nat (length (r_entries h)) - 1)
          then Done (Some (errors_New "invalid navigation entry")) p1
          else to_entry (r_entries h) (r_cur h + 1) p1
      end
  | Panic msg p1 => Panic msg p1
  | Blocked p1 => Blocked p1
  end.
Proof.
  unfold NavigateForward, bind.
  destruct (Do page.GetNavigationHistory p) as [h p1| |]; try done.
  destruct (r_err h); [done|]. by destruct (_ || _).
Qed.

Lemma to_entry_ok entries i en :
  index entries i = ret en ->
  to_entry entries i = orchestrate (page.NavigateToHistoryEntry (page.ID en)).
Proof. unfold to_entry. by intros ->. Qed.

Lemma to_entry_panic entries i msg p :
  index entries i = panic msg ->
  exists p', to_entry entries i p = Panic msg p' /\
             log p' = log p ++ [CListen (load_listener p);
                                CRelease (length (scopes (world p)))].
Proof.
  unfold to_entry. intros ->.
  eexists. split; [reflexivity|]. simpl. by rewrite <- app_assoc.
Qed.

(** Well-formedness is an invariant of the five actions: whatever the
    answers, the schedule and the outcome, an action started in a
    well-formed world ends in one. *)
Lemma cancel_wf c w : wf w -> wf (set_scopes (<[c:=true]> (scopes w)) w).
Proof.
  intros W. destruct (step_spec (CallRelease c) w W) as (w' & E & W' & _).
  simpl in E. unfold cancel in E. by injection E as <-.
Qed.

Lemma block_wf ok pick sched w :
  wf w -> wf (final (block ok pick sched w)).
Proof.
  intros W. destruct (block_total ok pick sched w W)
    as [(r & rest & w' & E) | (w' & E & Es & _)]; rewrite E; simpl.
  - apply block_spec in E as (consumed & _ & Es & _).
    destruct (steps_spec consumed w W) as (w'' & Es' & W'' & _).
    rewrite Es in Es'. by injection Es' as <-.
  - destruct (steps_spec sched w W) as (w'' & Es' & W'' & _).
    rewrite Es in Es'. by injection Es' as <-.
Qed.

Lemma orchestrate_wf c p :
  wf (world p) -> wf (world (final (orchestrate c p))).
Proof.
  intros W.
  unfold orchestrate, expectLifecycleLoaded, expectLifecycleEvent, bind.
  rewrite expectEvent_eq. unfold defer, bind.
  pose proof (arm_wf (IsLifecycle "load") p W) as W1.
  destruct (replies (arm (IsLifecycle "load") p)) as [|r rs] eqn:Hr.
  { rewrite Do_eq, Hr. by simpl. }
  destruct (Do_wf c _ r rs W1 Hr) as (w & Es & Ww & G & ->).
  destruct (r_err r) as [e|]; simpl.
  - by apply cancel_wf.
  - rewrite wait_eq. simpl.
    pose proof (block_wf (length (chans (world p))) (coin p) (pending p) w Ww) as Wb.
    destruct (block _ _ _ w) as [[r' rest] w'| |]; simpl in *;
      try done; by apply cancel_wf.
Qed.

Lemma to_entry_wf entries i p :
  wf (world p) -> wf (world (final (to_entry entries i p))).
Proof.
  intros W. destruct (index_cases entries i) as [(en & _ & _ & E) | (msg & E)].
  - rewrite (to_entry_ok _ _ _ E). by apply orchestrate_wf.
  - unfold to_entry. rewrite E. simpl.
    apply (cancel_wf _ (world (arm (IsLifecycle "load") p))). by apply arm_wf.
Qed.

Lemma Do_final_wf c p : wf (world p) -> wf (world (final (Do c p))).
Proof.
  intros W. destruct (replies p) as [|r rs] eqn:Hr.
  - rewrite Do_eq, Hr. by simpl.
  - by destruct (Do_wf c p r rs W Hr) as (w & _ & Ww & _ & ->).
Qed.

Lemma run_wf o p : wf (world p) -> wf (world (final (run o p))).
Proof.
  intros W.
  assert (Hhist : forall k : Reply -> Proc -> Outcome Proc (option error),
    (forall h p1, wf (world p1) -> wf (world (final (k h p1)))) ->
    wf (world (final (match Do page.GetNavigationHistory p with
                      | Done h p1 => k h p1
                      | Panic msg p1 => Panic msg p1
                      | Blocked p1 => Blocked p1
                      end)))).
  { intros k Hk. pose proof (Do_final_wf page.GetNavigationHistory p W) as WD.
    destruct (Do page.GetNavigationHistory p) as [h p1| |]; simpl in *; auto. }
  destruct o as [u|id| | |]; simpl.
  - by apply orchestrate_wf.
  - by apply orchestrate_wf.
  - rewrite NavigateBack_eq. apply Hhist. intros h p1 W1.
    destruct (r_err h); [done|]. destruct (_ || _); [done|]. by apply to_entry_wf.
  - rewrite NavigateForward_eq. apply Hhist. intros h p1 W1.
    destruct (r_err h); [done|]. destruct (_ || _); [done|]. by apply to_entry_wf.
  - by apply orchestrate_wf.
Qed.

Lemma Do_log c p :
  log (final (Do c p)) = log p ++ [CDo c].
Proof.
  rewrite Do_eq. destruct (replies p) as [|r rs]; [done|].
  by destruct (steps (during r) (world p)) as [[] w| |].
Qed.

Lemma Do_done_log c p r p1 : Do c p = Done r p1 -> log p1 = log p ++ [CDo c].
Proof. intros E. pose proof (Do_log c p) as H. by rewrite E in H. Qed.

(** C6: when the history request was answered without error, [NavigateBack]
    returns the error "invalid navigation entry" unless the current index
    is greater than 0 and at most the last valid index, and
    [NavigateForward] returns it unless the current index is less than the
    last valid index; in both cases the action ends in the very state the
    history request left, so no listener was registered and no navigation
    command was sent: the history request is the only call made. *)
Theorem history_guard_rejects (p p1 : Proc) (h : Reply) :
  Do page.GetNavigationHistory p = Done h p1 ->
  r_err h = None ->
  let last := Z.of_nat (length (r_entries h)) - 1 in
  (~ (0 < r_cur h <= last) ->
     NavigateBack p = Done (Some (errors_New "invalid navigation entry")) p1) /\
  (~ (r_cur h < last) ->
     NavigateForward p = Done (Some (errors_New "invalid navigation entry")) p1) /\
  log p1 = log p ++ [CDo page.GetNavigationHistory] /\
  listeners (world p1) = listeners (world p).
Proof.
  intros E He last. split; [|split; [|split]].
  - intros Hn. rewrite NavigateBack_eq, E, He.
    destruct (_ || _) eqn:G; [done|].
    apply orb_false_iff in G as [G1 G2]. subst last. lia.
  - intros Hn. rewrite NavigateForward_eq, E, He.
    destruct (_ || _) eqn:G; [done|].
    apply orb_false_iff in G as [G1 G2]. subst last. lia.
  - by eapply Do_done_log.
  - rewrite Do_eq in E. destruct (replies p) as [|r rs]; [done|].
    destruct (steps (during r) (world p)) as [[] w| |] eqn:Es; try done.
    injection E as -> <-. simpl. by eapply steps_listeners.
Qed.

Lemma to_entry_log entries i p :
  exists cs, log (final (to_entry entries i p)) = log p ++ cs /\
             ordered false cs = true.
Proof.
  destruct (index_cases entries i) as [(en & _ & _ & E) | (msg & E)].
  - rewrite (to_entry_ok _ _ _ E).
    destruct (orchestrate_log (page.NavigateToHistoryEntry (page.ID en)) p)
      as (rest & -> & Hr).
    eexists. split; [reflexivity|]. simpl. apply Hr.
  - destruct (to_entry_panic _ _ _ p E) as (p' & E1 & E2).
    rewrite E1. simpl. rewrite E2.
    eexists. split; [reflexivity|]. done.
Qed.

Lemma run_log o p :
  exists cs, log (final (run o p)) = log p ++ cs /\ ordered false cs = true.
Proof.
  assert (Horch : forall c, exists cs,
    log (final (orchestrate c p)) = log p ++ cs /\ ordered false cs = true).
  { intros c. destruct (orchestrate_log c p) as (rest & -> & Hr).
    eexists. split; [reflexivity|]. simpl. rewrite orb_true_r. apply Hr. }
  assert (Hhist : forall (k : Reply -> Proc -> Outcome Proc (option error)),
    (forall h p1, exists cs, log (final (k h p1)) = log p1 ++ cs /\
                             ordered false cs = true) ->
    exists cs,
      log (final (match Do page.GetNavigationHistory p with
                  | Done h p1 => k h p1
                  | Panic msg p1 => Panic msg p1
                  | Blocked p1 => Blocked p1
                  end)) = log p ++ cs /\ ordered false cs = true).
  { intros k Hk. pose proof (Do_log page.GetNavigationHistory p) as HD.
    destruct (Do page.GetNavigationHistory p) as [h p1| |]; simpl in HD;
      try (exists [CDo page.GetNavigationHistory]; by split).
    destruct (Hk h p1) as (cs & -> & Hcs). rewrite HD, <- app_assoc.
    eexists. split; [reflexivity|]. done. }
  destruct o as [u|id| | |]; simpl.
  - apply Horch.
  - apply Horch.
  - rewrite NavigateBack_eq. apply Hhist. intros h p1.
    destruct (r_err h); [exists []; by rewrite app_nil_r|].
    destruct (_ || _); [exists []; by rewrite app_nil_r|]. apply to_entry_log.
  - rewrite NavigateForward_eq. apply Hhist. intros h p1.
    destruct (r_err h); [exists []; by rewrite app_nil_r|].
    destruct (_ || _); [exists []; by rewrite app_nil_r|]. apply to_entry_log.
  - apply Horch.
Qed.

(** C2: in the calls any of the five actions makes, whatever its outcome,
    every command that starts a navigation comes after the registration of
    a "load" listener; and [expectEvent] has registered its listener with
    the event bus when it returns, so that an event the predicate accepts,
    delivered right then, closes the channel and [expect()] returns nil. *)
Theorem listener_registered_before_trigger (o : Op) (p : Proc) :
  (exists cs, log (final (run o p)) = log p ++ cs /\
     forall i c, cs !! i = Some (CDo c) -> is_trigger c = true ->
       exists j l, (j < i)%nat /\ cs !! j = Some (CListen l) /\
                   l_is l = IsLifecycle "load") /\
  (forall p_is, exists ok release p1,
      expectEvent p_is p = Done (Expect ok, release) p1 /\
      log p1 = log p ++ [CListen (mkListener release (Listen p_is ok release))] /\
      mkListener release (Listen p_is ok release) ∈ listeners (world p1) /\
      (wf (world p) -> ctx_err (world p) = None ->
       forall ev, result (apply_is p_is ev (world p1)) = Some true ->
         exists w2, step (Deliver ev) (world p1) = Done tt w2 /\
                    closed w2 ok = true /\
                    forall q, exists q',
                      wait (Expect ok) (set_world w2 q) = Done None q')).
Proof.
  split.
  - destruct (run_log o p) as (cs & E & Ho). exists cs. split; [done|].
    intros i c Hi Ht.
    destruct (ordered_sound cs false Ho i c Hi Ht) as [? | (j & l & Hj & Hl & Hload)];
      [done|].
    exists j, l. repeat split; try done.
    unfold is_load in Hload. destruct (l_is l) as [name].
    apply String.eqb_eq in Hload. by subst.
  - intros p_is. rewrite expectEvent_eq. eexists _, _, _.
    split; [reflexivity|]. split; [done|].
    destruct (arm_fresh p_is p) as (_ & Hx & Hin). split; [done|].
    intros W Hlive ev Hm.
    pose proof (arm_wf p_is p W) as W1.
    assert (Hd : scope_done (world (arm p_is p)) (length (scopes (world p))) = false).
    { unfold scope_done. rewrite Hx. simpl. by rewrite Hlive. }
    destruct (deliver_match _ _ _ _ _ W1 Hin Hd Hm)
      as (_ & w2 & E2 & _ & _ & Hc & Hcl & _).
    exists w2. split; [done|]. split; [done|].
    intros q. rewrite wait_eq. simpl.
    rewrite (block_ready _ _ _ _ None); [by eexists|].
    unfold select. rewrite Hcl, Hc. simpl. by rewrite Hlive.
Qed.

Lemma orchestrate_error c p r rs e :
  wf (world p) -> replies p = r :: rs -> r_err r = Some e ->
  returns_command_error (orchestrate c) p [] c e.
Proof.
  intros W Hr He.
  unfold returns_command_error, orchestrate, expectLifecycleLoaded,
    expectLifecycleEvent, bind.
  rewrite expectEvent_eq. unfold defer, bind.
  pose proof (arm_wf (IsLifecycle "load") p W) as W1.
  destruct (arm_fresh (IsLifecycle "load") p) as (_ & _ & Hin).
  destruct (Do_wf c (arm (IsLifecycle "load") p) r rs W1 Hr)
    as (w & Es & Ww & G & ->).
  rewrite He. simpl.
  eexists _, (load_listener p). split; [reflexivity|]. simpl.
  split; [by rewrite <- !app_assoc|]. split; [|split; [|done]].
  - by rewrite (g_listeners _ _ G).
  - unfold cancelled; simpl. rewrite list_lookup_insert_eq; [done|].
    rewrite (g_scopes _ _ G). simpl. rewrite length_app. simpl. lia.
Qed.

Lemma to_entry_error entries i en p0 p h r rs e :
  wf (world p0) -> replies p0 = h :: r :: rs -> r_err r = Some e ->
  Do page.GetNavigationHistory p0 = Done h p ->
  entries !! Z.to_nat i = Some (Some en) -> 0 <= i ->
  exists p' l,
    to_entry entries i p = Done (Some e) p' /\
    log p' = log p0 ++ [CDo page.GetNavigationHistory] ++
             [CListen l; CDo (page.NavigateToHistoryEntry (page.ID en));
              CRelease (l_release l)] /\
    l ∈ listeners (world p') /\
    cancelled (world p') (l_ctx l) = true /\
    pending p' = pending p0.
Proof.
  intros W Hr He HD Hi Hpos.
  destruct (Do_wf page.GetNavigationHistory p0 h (r :: rs) W Hr)
    as (w & Es & Ww & G & HD').
  rewrite HD in HD'. injection HD' as ->.
  assert (Hidx : index entries i = ret en).
  { unfold index. destruct (i <? 0) eqn:E; [apply Z.ltb_lt in E; lia|].
    by rewrite Hi. }
  rewrite (to_entry_ok _ _ _ Hidx).
  set (p := set_world w _).
  destruct (orchestrate_error (page.NavigateToHistoryEntry (page.ID en)) p r rs e)
    as (p' & l & E & Hlog & Hl & Hc & Hp); try done.
  exists p', l. split; [done|]. split; [|done].
  rewrite Hlog. simpl. by rewrite <- !app_assoc.
Qed.

(** C7: in each of the five actions, when the command that starts the
    navigation is answered with an error, the action returns that very
    error; its calls are the registration of the listener, the command and
    the deferred [release()], with no call of [expect()]; and the
    listener's scope is cancelled when the action returns. *)
Theorem command_error_returned_verbatim
  (p : Proc) (r : Reply) (rs : list Reply) (e : error) :
  wf (world p) -> r_err r = Some e ->
  (forall urlstr,
      returns_command_error (Navigate urlstr) (set_replies (r :: rs) p) []
                            (page.Navigate urlstr) e) /\
  (forall entryID,
      returns_command_error (NavigateToHistoryEntry entryID)
                            (set_replies (r :: rs) p) []
                            (page.NavigateToHistoryEntry entryID) e) /\
  returns_command_error Reload (set_replies (r :: rs) p) [] page.Reload e /\
  (forall h en,
      r_err h = None ->
      0 < r_cur h <= Z.of_nat (length (r_entries h)) - 1 ->
      r_entries h !! Z.to_nat (r_cur h - 1) = Some (Some en) ->
      returns_command_error NavigateBack (set_replies (h :: r :: rs) p)
                            [CDo page.GetNavigationHistory]
                            (page.NavigateToHistoryEntry (page.ID en)) e) /\
  (forall h en,
      r_err h = None ->
      0 <= r_cur h < Z.of_nat (length (r_entries h)) - 1 ->
      r_entries h !! Z.to_nat (r_cur h + 1) = Some (Some en) ->
      returns_command_error NavigateForward (set_replies (h :: r :: rs) p)
                            [CDo page.GetNavigationHistory]
                            (page.NavigateToHistoryEntry (page.ID en)) e).
Proof.
  intros W He. split; [|split; [|split; [|split]]].
  - intros u. rewrite Navigate_eq. by eapply orchestrate_error.
  - intros id. rewrite NavigateToHistoryEntry_eq. by eapply orchestrate_error.
  - rewrite Reload_eq. by eapply orchestrate_error.
  - intros h en Hh Hr Hi. unfold returns_command_error.
    rewrite NavigateBack_eq.
    destruct (Do_wf page.GetNavigationHistory (set_replies (h :: r :: rs) p)
                h (r :: rs) W eq_refl) as (w & Es & Ww & G & HD).
    rewrite HD, Hh.
    destruct (_ || _) eqn:Hg.
    { apply orb_true_iff in Hg as [Hg|Hg]; lia. }
    eapply to_entry_error; try done. lia.
  - intros h en Hh Hr Hi. unfold returns_command_error.
    rewrite NavigateForward_eq.
    destruct (Do_wf page.GetNavigationHistory (set_replies (h :: r :: rs) p)
                h (r :: rs) W eq_refl) as (w & Es & Ww & G & HD).
    rewrite HD, Hh.
    destruct (_ || _) eqn:Hg.
    { apply orb_true_iff in Hg as [Hg|Hg]; lia. }
    eapply to_entry_error; try done. lia.
Qed.

(** C9: [NavigationEntries] panics when it is built with a nil pointer for
    the current index or for the entries; built with two pointers, its
    action, once the history request is answered, returns the error of
    the answer (nil on success) and has stored the current index and the
    entry list of the answer where the two pointers point, leaving the
    other variables as they were. *)
Theorem NavigationEntries_contract :
  (forall entries, NavigationEntries None entries
                   = Aborted "currentIndex and entries cannot be nil") /\
  (forall currentIndex, NavigationEntries currentIndex None
                        = Aborted "currentIndex and entries cannot be nil") /\
  (forall pc pe, exists act,
      NavigationEntries (Some pc) (Some pe) = Action act /\
      forall p h p1,
        Do page.GetNavigationHistory p = Done h p1 ->
        exists p2,
          act p = Done (r_err h) p2 /\
          mem_int64 p2 !! pc = Some (r_cur h) /\
          mem_entries p2 !! pe = Some (r_entries h) /\
          (forall q, q <> pc -> mem_int64 p2 !! q = mem_int64 p !! q) /\
          (forall q, q <> pe -> mem_entries p2 !! q = mem_entries p !! q) /\
          world p2 = world p1 /\ log p2 = log p ++ [CDo page.GetNavigationHistory]) /\
  (forall p r rs, wf (world p) -> replies p = r :: rs ->
      exists p1, Do page.GetNavigationHistory p = Done r p1).
Proof.
  split; [|split; [|split]].
  - by intros [pe|].
  - by intros [pc|].
  - intros pc pe. eexists. split; [reflexivity|].
    intros p h p1 HD. unfold bind. rewrite HD.
    assert (Hm : mem_int64 p1 = mem_int64 p /\ mem_entries p1 = mem_entries p).
    { rewrite Do_eq in HD. destruct (replies p) as [|r rs]; [done|].
      destruct (steps (during r) (world p)) as [[] w| |]; try done.
      by injection HD as <- <-. }
    destruct Hm as [Hm1 Hm2].
    eexists. split; [reflexivity|]. simpl. rewrite Hm1, Hm2.
    split; [by rewrite lookup_insert_eq|]. split; [by rewrite lookup_insert_eq|].
    split; [intros q Hq; by rewrite lookup_insert_ne|].
    split; [intros q Hq; by rewrite lookup_insert_ne|].
    split; [done|]. by eapply Do_done_log.
  - intros p r rs W Hr.
    destruct (Do_wf page.GetNavigationHistory p r rs W Hr) as (w & _ & _ & _ & E).
    eauto.
Qed.

(** ** The theorems at sample inputs *)

Lemma wf_world0 : wf world0.
Proof.
  constructor; simpl; try apply NoDup_nil_2;
    intros l Hl; by apply elem_of_nil in Hl.
Qed.

Lemma frame_identity_read_at_each_evaluation_witness :
  wf (world (proc0 [] [])) /\
  exists p_is,
    predicate_of world_moved 0%nat = Some p_is /\
    (exists w3, navigatedFrameID world_moved = Done "B" w3 /\
                apply_is p_is (load "B") world_moved = Done true w3) /\
    (exists w3, navigatedFrameID world_moved = Done "B" w3 /\
                apply_is p_is (load "A") world_moved = Done false w3) /\
    apply_is p_is (OtherEvent "x") world_moved = Done false world_moved.
Proof.
  split; [exact wf_world0|].
  destruct (frame_identity_read_at_each_evaluation
              (proc0 [] []) p_armed "load" 0%nat 0%nat [SetCur (Some frameB)]
              world_moved wf_world0 eq_refl eq_refl) as (_ & p_is & Hp & _ & Hi).
  exists p_is. split; [exact Hp|].
  split; [exact (Hi (load "B"))|]. split; [exact (Hi (load "A"))|].
  exact (Hi (OtherEvent "x")).
Defined.

Lemma wait_nil_only_after_match_else_ctx_err_witness :
  wf (world (proc0 [] [])) /\
  exists p3, wait (Expect 0%nat) p_cancelled = Done (Some Canceled) p3.
Proof.
  split; [exact wf_world0|].
  apply (proj2 (wait_nil_only_after_match_else_ctx_err
                  (proc0 [] []) p_armed p_cancelled "load" 0%nat 0%nat
                  [CtxEnd Canceled] wf_world0 eq_refl eq_refl) Canceled);
    reflexivity.
Defined.

Lemma completion_signal_closed_at_most_once_witness :
  wf (world (proc0 [] [])) /\
  exists w2,
    steps [CallRelease 0%nat; Deliver (load "A"); CallRelease 0%nat;
           Deliver (load "A")] (world p_armed) = Done tt w2.
Proof.
  split; [exact wf_world0|].
  destruct (completion_signal_closed_at_most_once
              (proc0 [] []) p_armed (IsLifecycle "load") 0%nat 0%nat
              [CallRelease 0%nat; Deliver (load "A"); CallRelease 0%nat;
               Deliver (load "A")] wf_world0 eq_refl) as (w2 & E & _).
  exists w2. exact E.
Defined.

Lemma cancellation_race_one_outcome_witness :
  wf (world (proc0 [] [])) /\
  exists w3,
    steps [Deliver (load "A"); CtxEnd Canceled] (world p_armed) = Done tt w3 /\
    forall p, exists p',
      wait (Expect 0%nat) (set_world w3 p)
      = Done (if coin p then None else Some Canceled) p'.
Proof.
  split; [exact wf_world0|].
  exact (proj1 (cancellation_race_one_outcome
                  (proc0 [] []) p_armed (IsLifecycle "load") 0%nat 0%nat []
                  (world p_armed) (load "A") Canceled
                  wf_world0 eq_refl eq_refl eq_refl eq_refl)).
Defined.

Lemma history_guard_rejects_witness :
  NavigateBack (proc0 [history 0] [])
  = Done (Some (errors_New "invalid navigation entry"))
         (final (Do page.GetNavigationHistory (proc0 [history 0] []))) /\
  NavigateForward (proc0 [history 1] [])
  = Done (Some (errors_New "invalid navigation entry"))
         (final (Do page.GetNavigationHistory (proc0 [history 1] []))).
Proof.
  split.
  - apply (proj1 (history_guard_rejects (proc0 [history 0] []) _ (history 0)
                    eq_refl eq_refl)).
    simpl. lia.
  - apply (proj1 (proj2 (history_guard_rejects (proc0 [history 1] []) _ (history 1)
                           eq_refl eq_refl))).
    simpl. lia.
Defined.

Lemma command_error_returned_verbatim_witness :
  wf (world (proc0 [] [])) /\
  returns_command_error (Navigate "u") (set_replies [refused] (proc0 [] [])) []
                        (page.Navigate "u") (ProtocolError "net") /\
  returns_command_error NavigateBack
                        (set_replies [history 1; refused] (proc0 [] []))
                        [CDo page.GetNavigationHistory]
                        (page.NavigateToHistoryEntry 7) (ProtocolError "net").
Proof.
  split; [exact wf_world0|].
  pose proof (command_error_returned_verbatim
                (proc0 [] []) refused [] (ProtocolError "net") wf_world0 eq_refl)
    as (HN & _ & _ & HB & _).
  split; [apply HN|].
  apply (HB (history 1) entry0); [reflexivity | simpl; lia | reflexivity].
Defined.

(** ** More on the frame identity and the dispatcher *)

Lemma navigatedFrameID_balanced w :
  nil_cur w = false -> navigatedFrameID w = Done (frame_identity w) w.
Proof.
  unfold nil_cur, frame_identity. destruct (executor w) as [[[f|] n]|] eqn:E; try done.
  - intros _. by apply navigatedFrameID_balanced_frame with n.
  - intros _. by apply navigatedFrameID_balanced_no_target.
Qed.

Lemma apply_is_balanced p_is ev w :
  nil_cur w = false -> apply_is p_is ev w = Done (matches p_is ev w) w.
Proof.
  intros H. destruct p_is as [name], ev as [e|k]; simpl; try done.
  destruct (String.eqb (page.Name e) name); simpl; [|done].
  unfold bind. by rewrite (navigatedFrameID_balanced w H).
Qed.

Lemma dispatch_noop ls ev w :
  nil_cur w = false ->
  (forall l, l ∈ ls -> scope_done w (l_ctx l) = false ->
             result (apply_is (l_is l) ev w) = Some false) ->
  dispatch ls ev w = Done tt w.
Proof.
  intros Hn. induction ls as [|l ls IH]; intros H; simpl; [done|].
  unfold bind, visit.
  assert (Hl : scope_done w (l_ctx l) = false ->
               result (apply_is (l_is l) ev w) = Some false)
    by (apply H, list_elem_of_here).
  destruct (scope_done w (l_ctx l)).
  - apply IH. intros x Hx. by apply H, list_elem_of_further.
  - specialize (Hl eq_refl). unfold l_is in Hl.
    destruct (l_fn l) as [q ok rel]. simpl. unfold bind.
    rewrite (apply_is_balanced q ev w Hn) in *. simpl in Hl.
    injection Hl as ->. simpl. apply IH.
    intros x Hx. by apply H, list_elem_of_further.
Qed.

(** X1: when the read lock is balanced (the executor is not a target, or
    the target has a current frame), an event that no subscribed listener
    accepts changes nothing at all: the delivery returns the very world it
    started in. *)
Theorem delivery_without_match_is_noop (ev : Event) (w : World) :
  nil_cur w = false ->
  (forall l, l ∈ listeners w -> scope_done w (l_ctx l) = false ->
             result (apply_is (l_is l) ev w) = Some false) ->
  step (Deliver ev) w = Done tt w.
Proof. intros Hn H. simpl. by apply dispatch_noop. Qed.

(** X2: what a delivery closes and cancels, exactly: after an event went to
    the listeners of a well-formed world, a channel is closed if and only
    if it was closed before or belongs to a listener that was subscribed
    and whose predicate accepted the event, and likewise a scope is
    cancelled if and only if it was before or is the scope of such a
    listener; the governing context is untouched. *)
Theorem delivery_closes_exactly (ev : Event) (w : World) :
  wf w ->
  exists w',
    step (Deliver ev) w = Done tt w' /\
    ctx_err w' = ctx_err w /\
    (forall c, closed w' c = true <->
       closed w c = true \/
       exists l, l ∈ listeners w /\ l_ok l = c /\
                 scope_done w (l_ctx l) = false /\
                 result (apply_is (l_is l) ev w) = Some true) /\
    (forall s, cancelled w' s = true <->
       cancelled w s = true \/
       exists l, l ∈ listeners w /\ l_ctx l = s /\
                 scope_done w (l_ctx l) = false /\
                 result (apply_is (l_is l) ev w) = Some true).
Proof.
  intros W. simpl.
  destruct (dispatch_spec (listeners w) ev w W) as (w' & E & D); [done | apply W |].
  exists w'. split; [done|]. split; [apply D|].
  assert (Hf : forall l, fires l ev w = true <->
                 scope_done w (l_ctx l) = false /\
                 result (apply_is (l_is l) ev w) = Some true).
  { intros l. unfold fires. by rewrite andb_true_iff, negb_true_iff, apply_is_true. }
  split.
  - intros c. rewrite (d_closed _ _ _ _ D), orb_true_iff, hit_ok_true.
    split; (intros [H|(l & Hl & H1 & H2)]; [by left|right]); exists l.
    + apply Hf in H1. by destruct H1.
    + split; [done|]. split; [by apply Hf | done].
  - intros s. rewrite (d_cancelled _ _ _ _ D), orb_true_iff, hit_ctx_true.
    split; (intros [H|(l & Hl & H1 & H2)]; [by left|right]); exists l.
    + apply Hf in H1. by destruct H1.
    + split; [done|]. split; [by apply Hf | done].
Qed.

Lemma select_none ok pick w :
  select ok pick w = None <-> closed w ok = false /\ ctx_err w = None.
Proof.
  unfold select. destruct (closed w ok), (ctx_err w); split; try done;
    by intros [? ?].
Qed.

Lemma select_grows ok pick w w' :
  grows w w' -> select ok pick w <> None -> select ok pick w' <> None.
Proof.
  intros G H H'. apply select_none in H' as [Hc He]. apply H.
  apply select_none. split.
  - destruct (closed w ok) eqn:E; [|done]. apply (g_closed _ _ G) in E. congruence.
  - destruct (ctx_err w) as [e|] eqn:E; [|done]. apply (g_ctx _ _ G) in E. congruence.
Qed.

(** X3: once the scope of a barrier's listener is done (the caller called
    [release()], or the governing context ended) while its channel is
    still open, nothing that happens later closes the channel, so
    [expect()] can no longer return nil: if it returns, it returns the
    error of the governing context. *)
Theorem released_barrier_never_resolves
  (p0 p1 : Proc) (p_is : isExpectedEvent) (ok : chan) (release : CancelFunc)
  (tr : list Step) (w2 : World) :
  wf (world p0) ->
  expectEvent p_is p0 = Done (Expect ok, release) p1 ->
  steps tr (world p1) = Done tt w2 ->
  closed w2 ok = false ->
  scope_done w2 release = true ->
  (forall tr' w3, steps tr' w2 = Done tt w3 -> closed w3 ok = false) /\
  (forall p r p', wait (Expect ok) (set_world w2 p) = Done r p' ->
     exists e, r = Some e /\ ctx_err (world p') = Some e).
Proof.
  intros W0 Harm Htr Hopen Hdone.
  rewrite expectEvent_eq in Harm. injection Harm as <- <- <-.
  pose proof (arm_wf p_is p0 W0) as W1.
  destruct (arm_fresh p_is p0) as (_ & _ & Hin).
  set (ok := length (chans (world p0))) in *.
  set (release := length (scopes (world p0))) in *.
  destruct (steps_spec tr _ W1) as (w2' & E2 & W2 & G2).
  rewrite Htr in E2. injection E2 as <-.
  rewrite <- (g_listeners _ _ G2) in Hin.
  assert (Hnever : forall tr' w3, steps tr' w2 = Done tt w3 -> closed w3 ok = false).
  { intros tr' w3 E3. destruct (closed w3 ok) eqn:Hc; [|done].
    destruct (steps_closes _ _ _ _ W2 E3 Hopen Hc)
      as (s1 & ev & s2 & wa & l & _ & Es & Hl & Hok & Hf).
    destruct (steps_spec s1 _ W2) as (wa' & Es' & Wa & Ga).
    rewrite Es in Es'. injection Es' as <-.
    rewrite <- (g_listeners _ _ Ga) in Hin.
    rewrite (owner_unique _ _ _ _ _ Wa Hin Hl Hok) in Hf.
    apply fires_owner in Hf as [Hd _].
    apply (grows_scope_done _ _ _ Ga) in Hdone. congruence. }
  split; [done|].
  intros p r p' Hw. rewrite wait_eq in Hw. simpl in Hw.
  destruct (block ok (coin p) (pending p) w2) as [[r' rest] w3| |] eqn:Hb; try done.
  injection Hw as -> <-. simpl.
  apply block_spec in Hb as (consumed & _ & Es & Hsel).
  destruct r as [e|].
  - exists e. split; [done|]. by apply select_err in Hsel.
  - apply select_nil in Hsel. rewrite (Hnever _ _ Es) in Hsel. done.
Qed.

(** X5: when there is no frame identity to read -- the executor of the
    context is not a target, or the target has no current frame -- the
    predicate accepts exactly the lifecycle events of the requested name
    whose frame identifier is the empty string. *)
Theorem empty_identity_matches_empty_frame
  (name : string) (e : page.EventLifecycleEvent) (w : World) :
  executor w = NotTarget \/ nil_cur w = true ->
  result (apply_is (IsLifecycle name) (LifecycleEvent e) w)
  = Some (String.eqb (page.Name e) name && String.eqb (page.FrameID e) "").
Proof.
  intros H.
  destruct (apply_is_spec (IsLifecycle name) (LifecycleEvent e) w) as (w' & -> & _).
  simpl. do 3 f_equal. unfold frame_identity, nil_cur in *.
  destruct H as [-> | H]; [done|].
  by destruct (executor w) as [[[f|] n]|].
Qed.

Lemma navigatedFrameID_readers w :
  exists w', navigatedFrameID w = Done (frame_identity w) w' /\
             readers w' = (readers w + if nil_cur w then 1 else 0)%nat /\
             nil_cur w' = nil_cur w /\ scopes w' = scopes w /\
             ctx_err w' = ctx_err w.
Proof.
  unfold navigatedFrameID, frame_identity, readers, nil_cur.
  destruct w as [[[[f|] n]|] ce ch sc ls]; simpl; eexists;
    (split; [reflexivity|]); simpl; repeat split; lia.
Qed.

Lemma apply_listen_readers l ev w w1 :
  apply_listen (l_fn l) ev w = Done tt w1 ->
  readers w1 = (readers w + if nil_cur w && name_matches (l_is l) ev
                            then 1 else 0)%nat /\
  nil_cur w1 = nil_cur w.
Proof.
  unfold l_is. destruct (l_fn l) as [q ok rel]. simpl. unfold bind.
  assert (Hq : exists b w2, apply_is q ev w = Done b w2 /\
            readers w2 = (readers w + if nil_cur w && name_matches q ev
                                      then 1 else 0)%nat /\
            nil_cur w2 = nil_cur w).
  { destruct q as [name], ev as [e|k]; simpl.
    - destruct (String.eqb (page.Name e) name); simpl.
      + unfold bind. destruct (navigatedFrameID_readers w) as (w2 & -> & H1 & H2 & _).
        eexists _, w2. split; [reflexivity|]. rewrite andb_true_r. by split.
      + eexists _, w. split; [reflexivity|]. rewrite andb_false_r. split; [lia|done].
    - eexists _, w. split; [reflexivity|]. rewrite andb_false_r. split; [lia|done]. }
  destruct Hq as (b & w2 & -> & Hr & Hn).
  destruct b; [|by intros [= <-]].
  unfold close. destruct (chans w2 !! ok) as [[|]|]; try done.
  by intros [= <-].
Qed.

Lemma reads_frame_after_visit l l' ev w w1 :
  delivered [l] ev w w1 -> l_ctx l' <> l_ctx l ->
  reads_frame l' ev w1 = reads_frame l' ev w.
Proof.
  intros D Hne. unfold reads_frame, scope_done.
  rewrite (d_cancelled _ _ _ _ D), (d_ctx _ _ _ _ D).
  unfold hit_ctx; simpl. rewrite (bool_decide_eq_false_2 _ Hne).
  by rewrite andb_false_r, !orb_false_r.
Qed.

Lemma dispatch_readers ls ev : forall w,
  wf w -> ls ⊆ listeners w -> NoDup (l_ctx <$> ls) ->
  exists w', dispatch ls ev w = Done tt w' /\ nil_cur w' = nil_cur w /\
    readers w' = (readers w +
                  if nil_cur w
                  then length (List.filter (fun l => reads_frame l ev w) ls)
                  else 0)%nat.
Proof.
  induction ls as [|l ls IH]; intros w W Sub ND.
  - exists w. repeat split; try done. simpl. destruct (nil_cur w); lia.
  - simpl in ND. apply NoDup_cons in ND as [Nl ND].
    assert (Hl : l ∈ listeners w) by (apply Sub, list_elem_of_here).
    assert (Sub' : ls ⊆ listeners w).
    { intros x Hx. by apply Sub, list_elem_of_further. }
    destruct (visit_spec l ev w W Hl) as (w1 & E1 & D1).
    assert (W1 : wf w1).
    { eapply delivered_wf; [exact W | | exact D1].
      intros x Hx. apply list_elem_of_singleton in Hx. by subst. }
    assert (Hv : readers w1 = (readers w + if nil_cur w && reads_frame l ev w
                                           then 1 else 0)%nat /\
                 nil_cur w1 = nil_cur w).
    { unfold visit, reads_frame in *. destruct (scope_done w (l_ctx l)).
      - injection E1 as <-. simpl. rewrite andb_false_r. split; [lia|done].
      - simpl. by apply apply_listen_readers. }
    destruct Hv as [Hr1 Hn1].
    destruct (IH w1 W1) as (w' & E2 & Hn2 & Hr2);
      [by rewrite (d_listeners _ _ _ _ D1) | done |].
    exists w'. split; [simpl; unfold bind; by rewrite E1|].
    split; [congruence|].
    rewrite Hr2, Hr1, Hn1. simpl.
    assert (Hfil : List.filter (fun x => reads_frame x ev w1) ls
                   = List.filter (fun x => reads_frame x ev w) ls).
    { apply List.filter_ext_in. intros x Hx. apply list_elem_of_In in Hx.
      eapply reads_frame_after_visit; [exact D1|].
      intros E. apply Nl. rewrite <- E. by apply list_elem_of_fmap_2. }
    rewrite Hfil.
    destruct (nil_cur w); simpl; [|lia].
    destruct (reads_frame l ev w); simpl; lia.
Qed.

(** X6: how many read locks a delivery leaks.  On a target without a
    current frame, every subscribed listener whose predicate gets past the
    name test calls [navigatedFrameID], which returns with the read lock
    held: the delivery of one event leaves as many more read locks held as
    there are such listeners.  In every other world the count of read
    locks is the same after the delivery as before. *)
Theorem delivery_read_lock_leak (ev : Event) (w : World) :
  wf w ->
  exists w',
    step (Deliver ev) w = Done tt w' /\
    readers w' = (readers w +
                  if nil_cur w
                  then length (List.filter (fun l => reads_frame l ev w)
                                           (listeners w))
                  else 0)%nat.
Proof.
  intros W. simpl.
  destruct (dispatch_readers (listeners w) ev w W) as (w' & E & _ & Hr);
    [done | apply W |].
  by exists w'.
Qed.

Lemma step_keeps_lock_free s w w' :
  wf w -> readers w = O -> nil_cur w = false -> s <> SetCur None ->
  step s w = Done tt w' -> readers w' = O /\ nil_cur w' = false.
Proof.
  intros W Hr Hn Hs E. destruct s as [ev|e|f|c]; simpl in E.
  - destruct (dispatch_readers (listeners w) ev w W) as (w'' & E' & Hn' & Hr');
      [done | apply W |].
    rewrite E in E'. injection E' as <-. rewrite Hn in Hr'.
    split; [lia | congruence].
  - injection E as <-. unfold readers, nil_cur in *.
    by destruct (ctx_err w).
  - unfold write_cur in E. unfold readers, nil_cur in *.
    destruct f as [f|]; [|done].
    destruct (executor w) as [[cu [|n]]|] eqn:Ex; injection E as <-;
      simpl in *; rewrite ?Ex; simpl; try done; exfalso; lia.
  - by injection E as <-.
Qed.

Lemma steps_keep_lock_free ss : forall w w',
  wf w -> readers w = O -> nil_cur w = false ->
  Forall (fun s => s <> SetCur None) ss ->
  steps ss w = Done tt w' -> readers w' = O /\ nil_cur w' = false.
Proof.
  induction ss as [|s ss IH]; intros w w' W Hr Hn Hss; simpl.
  - by intros [= <-].
  - apply Forall_cons in Hss as [Hs Hss]. unfold bind.
    destruct (step_spec s w W) as (w1 & E1 & W1 & _). rewrite E1.
    destruct (step_keeps_lock_free s w w1 W Hr Hn Hs E1) as [Hr1 Hn1].
    by apply IH.
Qed.

(** X4: take a well-formed world in which no read lock of [curMu] is held,
    and a wait during which either [target.cur] is not written at all, or
    the target has a current frame and keeps having one.  Then every
    writer of [target.cur] finds the lock free, so no delivery ever waits
    for it; [expect()] never panics; and it blocks forever exactly when,
    after everything that is still going to happen has happened, its
    channel is still open and the governing context is still live. *)
Theorem expect_blocks_iff (ok : chan) (p : Proc) :
  wf (world p) ->
  readers (world p) = O ->
  Forall (fun s => forall f, s <> SetCur f) (pending p) \/
  (nil_cur (world p) = false /\ Forall (fun s => s <> SetCur None) (pending p)) ->
  exists w_end,
    steps (pending p) (world p) = Done tt w_end /\
    ((exists p', wait (Expect ok) p = Blocked p') <->
     closed w_end ok = false /\ ctx_err w_end = None) /\
    (forall msg p', wait (Expect ok) p <> Panic msg p') /\
    (forall s1 f s2 wa,
        pending p = s1 ++ SetCur f :: s2 ->
        steps s1 (world p) = Done tt wa -> readers wa = O).
Proof.
  intros W Hr0 Hsched.
  destruct (steps_spec (pending p) _ W) as (w_end & Ee & We & Ge).
  exists w_end. split; [done|].
  assert (Hfree : forall s1 f s2 wa,
            pending p = s1 ++ SetCur f :: s2 ->
            steps s1 (world p) = Done tt wa -> readers wa = O).
  { intros s1 f s2 wa Hp Es. destruct Hsched as [Hno | [Hn Hsome]].
    - exfalso. rewrite Hp in Hno. apply Forall_app in Hno as [_ Hno].
      apply Forall_cons in Hno as [Hno _]. by apply (Hno f).
    - rewrite Hp in Hsome. apply Forall_app in Hsome as [Hsome _].
      by destruct (steps_keep_lock_free s1 _ _ W Hr0 Hn Hsome Es). }
  rewrite wait_eq.
  destruct (block_total ok (coin p) (pending p) (world p) W)
    as [(r & rest & w' & E) | (w' & E & Es & Hs)]; rewrite E.
  - split; [|by split]. split; [by intros [p' H]|].
    intros Hn. exfalso.
    apply block_spec in E as (consumed & Hp & Es & Hsel).
    destruct (steps_spec consumed _ W) as (w'' & Es' & W' & _).
    rewrite Es in Es'. injection Es' as <-.
    destruct (steps_spec rest _ W') as (w3 & Er & _ & Gr).
    rewrite Hp, (steps_app _ _ _ _ Es), Er in Ee. injection Ee as ->.
    eapply (select_grows ok (coin p) _ _ Gr); [by rewrite Hsel|].
    by apply select_none.
  - rewrite Es in Ee. injection Ee as ->.
    split; [|by split]. split; [intros _; by apply select_none in Hs | eauto].
Qed.

(** ** More on the actions *)

Lemma orchestrate_error_provenance c p e p' :
  orchestrate c p = Done (Some e) p' ->
  (exists r, r ∈ replies p /\ r_err r = Some e) \/ ctx_err (world p') = Some e.
Proof.
  unfold orchestrate, expectLifecycleLoaded, expectLifecycleEvent, bind.
  rewrite expectEvent_eq. unfold defer, bind. rewrite Do_eq. simpl.
  destruct (replies p) as [|r rs]; [done|].
  destruct (steps (during r) _) as [[] w| |]; simpl; try done.
  destruct (r_err r) as [e0|] eqn:He; simpl.
  - intros [= <- <-]. left. exists r. split; [apply list_elem_of_here | done].
  - rewrite wait_eq. simpl.
    destruct (block _ _ _ w) as [[r' rest] w'| |] eqn:Hb; simpl; try done.
    intros [= -> <-]. simpl. right.
    apply block_spec in Hb as (_ & _ & _ & Hsel). by apply select_err in Hsel.
Qed.

Lemma to_entry_error_provenance entries i p e p' :
  to_entry entries i p = Done (Some e) p' ->
  (exists r, r ∈ replies p /\ r_err r = Some e) \/ ctx_err (world p') = Some e.
Proof.
  destruct (index_cases entries i) as [(en & _ & _ & E) | (msg & E)].
  - rewrite (to_entry_ok _ _ _ E). apply orchestrate_error_provenance.
  - by destruct (to_entry_panic _ _ _ p E) as (p1 & -> & _).
Qed.

Lemma Do_done_replies c p r p1 :
  Do c p = Done r p1 ->
  replies p = r :: replies p1 /\ pending p1 = pending p /\
  steps (during r) (world p) = Done tt (world p1).
Proof.
  rewrite Do_eq. destruct (replies p) as [|r0 rs]; [done|].
  destruct (steps (during r0) (world p)) as [[] w| |] eqn:Es; try done.
  intros [= <- <-]. by simpl.
Qed.

(** X7: where the error of an action comes from.  An error returned by any
    of the five actions is the error of the answer to one of its protocol
    calls, or the error of the governing context as it stands when the
    action returns, or -- for back and forward only -- the error "invalid
    navigation entry". *)
Theorem action_error_provenance (o : Op) (p p' : Proc) (e : error) :
  run o p = Done (Some e) p' ->
  (exists r, r ∈ replies p /\ r_err r = Some e) \/
  ctx_err (world p') = Some e \/
  ((o = ONavigateBack \/ o = ONavigateForward) /\
   e = errors_New "invalid navigation entry").
Proof.
  assert (Horch : forall c, orchestrate c p = Done (Some e) p' ->
    (exists r, r ∈ replies p /\ r_err r = Some e) \/
    ctx_err (world p') = Some e \/
    ((o = ONavigateBack \/ o = ONavigateForward) /\
     e = errors_New "invalid navigation entry")).
  { intros c H. apply orchestrate_error_provenance in H as [H|H]; auto. }
  assert (Hhist : forall (g : Reply -> bool) (j : Reply -> Z),
    (o = ONavigateBack \/ o = ONavigateForward) ->
    match Do page.GetNavigationHistory p with
    | Done h p1 =>
        match r_err h with
        | Some err => Done (Some err) p1
        | None =>
            if g h then Done (Some (errors_New "invalid navigation entry")) p1
            else to_entry (r_entries h) (j h) p1
        end
    | Panic msg p1 => Panic msg p1
    | Blocked p1 => Blocked p1
    end = Done (Some e) p' ->
    (exists r, r ∈ replies p /\ r_err r = Some e) \/
    ctx_err (world p') = Some e \/
    ((o = ONavigateBack \/ o = ONavigateForward) /\
     e = errors_New "invalid navigation entry")).
  { intros g j Ho.
    destruct (Do page.GetNavigationHistory p) as [h p1| |] eqn:HD; try done.
    apply Do_done_replies in HD as (Hr & _ & _).
    destruct (r_err h) as [e0|] eqn:He.
    - intros [= <- <-]. left. exists h. split; [|done].
      rewrite Hr. apply list_elem_of_here.
    - destruct (g h).
      + intros [= <- <-]. right. right. by split.
      + intros H. apply to_entry_error_provenance in H as [(r & Hin & Hre)|H]; auto.
        left. exists r. split; [|done]. rewrite Hr. by apply list_elem_of_further. }
  destruct o as [u|id| | |]; simpl.
  - apply Horch.
  - apply Horch.
  - rewrite NavigateBack_eq.
    apply (Hhist (fun h => (r_cur h <=? 0)
                           || (r_cur h >? Z.of_nat (length (r_entries h)) - 1))
                 (fun h => r_cur h - 1)). by left.
  - rewrite NavigateForward_eq.
    apply (Hhist (fun h => (r_cur h <? 0)
                           || (r_cur h >=? Z.of_nat (length (r_entries h)) - 1))
                 (fun h => r_cur h + 1)). by right.
  - apply Horch.
Qed.

(** The shared body of the actions on a well-formed world, case by case. *)
Lemma orchestrate_outcome c p :
  wf (world p) ->
  let pa := arm (IsLifecycle "load") p in
  let ok := length (chans (world p)) in
  let release := length (scopes (world p)) in
  match replies p with
  | [] => orchestrate c p = Blocked (record (CDo c) pa)
  | r :: rs =>
      exists w,
        steps (during r) (world pa) = Done tt w /\ wf w /\ grows (world pa) w /\
        let p1 := set_world w (set_replies rs (record (CDo c) pa)) in
        match r_err r with
        | Some e => orchestrate c p = Done (Some e) (final (call release p1))
        | None =>
            (exists res consumed rest w',
                pending p = consumed ++ rest /\
                steps consumed w = Done tt w' /\ wf w' /\ grows w w' /\
                select ok (coin p) w' = Some res /\
                orchestrate c p
                = Done res (final (call release
                     (set_pending rest
                        (set_world w' (record (CExpect ok) p1)))))) \/
            (exists w',
                steps (pending p) w = Done tt w' /\
                select ok (coin p) w' = None /\
                orchestrate c p = Blocked (set_world w' (record (CExpect ok) p1)))
        end
  end.
Proof.
  intros W pa ok release.
  pose proof (arm_wf (IsLifecycle "load") p W) as W1.
  unfold orchestrate, expectLifecycleLoaded, expectLifecycleEvent, bind.
  rewrite expectEvent_eq. unfold defer, bind. fold pa ok release.
  destruct (replies p) as [|r rs] eqn:Hr.
  { rewrite Do_eq. simpl. by rewrite Hr. }
  destruct (Do_wf c pa r rs W1 Hr) as (w & Es & Ww & G & ->).
  exists w. split; [done|]. split; [done|]. split; [done|]. simpl.
  destruct (r_err r) as [e|]; [done|].
  rewrite wait_eq. simpl.
  destruct (block_total ok (coin p) (pending p) w Ww)
    as [(res & rest & w' & E) | (w' & E & Esw & Hs)]; rewrite E; simpl.
  - left. apply block_spec in E as (consumed & Hp & Esw & Hsel).
    destruct (steps_spec consumed w Ww) as (w'' & Es' & W' & G').
    rewrite Esw in Es'. injection Es' as <-.
    by exists res, consumed, rest, w'.
  - right. by exists w'.
Qed.

Lemma closed_after_arm p_is p tr w3 :
  wf (world p) ->
  steps tr (world (arm p_is p)) = Done tt w3 ->
  closed w3 (length (chans (world p))) = true ->
  exists s1 ev s2 wa,
    tr = s1 ++ Deliver ev :: s2 /\
    steps s1 (world (arm p_is p)) = Done tt wa /\
    scope_done wa (length (scopes (world p))) = false /\
    result (apply_is p_is ev wa) = Some true.
Proof.
  intros W Htr Hc.
  pose proof (arm_wf p_is p W) as W1.
  destruct (arm_fresh p_is p) as (Hopen & _ & Hin).
  destruct (steps_closes _ _ _ _ W1 Htr Hopen Hc)
    as (s1 & ev & s2 & wa & l & E & Es & Hl & Hok & Hf).
  destruct (steps_spec s1 _ W1) as (wa' & Es' & Wa & Ga).
  rewrite Es in Es'. injection Es' as <-.
  rewrite <- (g_listeners _ _ Ga) in Hin.
  rewrite (owner_unique _ _ _ _ _ Wa Hin Hl Hok) in Hf.
  apply fires_owner in Hf as [Hd Hm].
  by exists s1, ev, s2, wa.
Qed.

Lemma orchestrate_success_needs_load c p p' :
  wf (world p) -> orchestrate c p = Done None p' ->
  exists r consumed,
    r ∈ replies p /\ r_err r = None /\ pending p = consumed ++ pending p' /\
    load_observed (arm (IsLifecycle "load") p) (during r ++ consumed)
                  (length (scopes (world p))).
Proof.
  intros W H. pose proof (orchestrate_outcome c p W) as O. simpl in O.
  destruct (replies p) as [|r rs]; [congruence|].
  destruct O as (w & Es & Ww & G & O).
  destruct (r_err r) as [e|] eqn:He; [congruence|].
  destruct O as [(res & consumed & rest & w' & Hp & Esw & W' & G' & Hsel & O)
                | (w' & _ & _ & O)]; [|congruence].
  rewrite O in H. injection H as -> <-. simpl.
  exists r, consumed. split; [apply list_elem_of_here|]. split; [done|].
  split; [done|].
  apply select_nil in Hsel.
  eapply closed_after_arm; [done | | done].
  by rewrite (steps_app _ _ _ _ Es).
Qed.

(** X8: success needs the load.  When one of the five actions returns nil
    on a well-formed world, then after the action registered its listener
    -- in the steps that ran while its navigation command was in flight,
    followed by those that ran while it waited -- an event was delivered
    that the "load" predicate accepted while the listener was still
    subscribed.  For back and forward the listener was registered in the
    state the history request left. *)
Theorem success_needs_load_event (o : Op) (p p' : Proc) :
  wf (world p) ->
  run o p = Done None p' ->
  exists pa r consumed,
    (pa = p \/ exists h, Do page.GetNavigationHistory p = Done h pa) /\
    r ∈ replies p /\ r_err r = None /\
    pending p = consumed ++ pending p' /\
    load_observed (arm (IsLifecycle "load") pa) (during r ++ consumed)
                  (length (scopes (world pa))).
Proof.
  intros W.
  assert (Horch : forall c, orchestrate c p = Done None p' ->
    exists pa r consumed,
      (pa = p \/ exists h, Do page.GetNavigationHistory p = Done h pa) /\
      r ∈ replies p /\ r_err r = None /\
      pending p = consumed ++ pending p' /\
      load_observed (arm (IsLifecycle "load") pa) (during r ++ consumed)
                    (length (scopes (world pa)))).
  { intros c H.
    destruct (orchestrate_success_needs_load c p p' W H) as (r & consumed & H').
    exists p, r, consumed. split; [by left | done]. }
  assert (Hhist : forall (g : Reply -> bool) (j : Reply -> Z),
    match Do page.GetNavigationHistory p with
    | Done h p1 =>
        match r_err h with
        | Some err => Done (Some err) p1
        | None =>
            if g h then Done (Some (errors_New "invalid navigation entry")) p1
            else to_entry (r_entries h) (j h) p1
        end
    | Panic msg p1 => Panic msg p1
    | Blocked p1 => Blocked p1
    end = Done None p' ->
    exists pa r consumed,
      (pa = p \/ exists h, Do page.GetNavigationHistory p = Done h pa) /\
      r ∈ replies p /\ r_err r = None /\
      pending p = consumed ++ pending p' /\
      load_observed (arm (IsLifecycle "load") pa) (during r ++ consumed)
                    (length (scopes (world pa)))).
  { intros g j.
    pose proof (Do_final_wf page.GetNavigationHistory p W) as W1.
    destruct (Do page.GetNavigationHistory p) as [h p1| |] eqn:HD; try done.
    simpl in W1. apply Do_done_replies in HD as (Hr & Hp & _).
    destruct (r_err h); [done|]. destruct (g h); [done|].
    destruct (index_cases (r_entries h) (j h)) as [(en & _ & _ & E) | (msg & E)].
    - rewrite (to_entry_ok _ _ _ E). intros H.
      destruct (orchestrate_success_needs_load _ p1 p' W1 H)
        as (r & consumed & Hin & He & Hpend & Hobs).
      exists p1, r, consumed. split; [right; by exists h|].
      split; [rewrite Hr; by apply list_elem_of_further|].
      split; [done|]. split; [congruence | done].
    - by destruct (to_entry_panic _ _ _ p1 E) as (q & -> & _). }
  destruct o as [u|id| | |]; simpl.
  - apply Horch.
  - apply Horch.
  - rewrite NavigateBack_eq. apply Hhist.
  - rewrite NavigateForward_eq. apply Hhist.
  - apply Horch.
Qed.

Lemma call_world release q :
  world (final (call release q))
  = set_scopes (<[release:=true]> (scopes (world q))) (world q).
Proof. reflexivity. Qed.

Lemma cancelled_after_cancel release w :
  (release < length (scopes w))%nat ->
  cancelled (set_scopes (<[release:=true]> (scopes w)) w) release = true.
Proof.
  intros H. unfold cancelled; simpl. by rewrite list_lookup_insert_eq.
Qed.

Lemma arm_scopes p_is p :
  length (scopes (world (arm p_is p))) = S (length (scopes (world p))) /\
  listeners (world (arm p_is p))
  = listeners (world p) ++ [mkListener (length (scopes (world p)))
                              (Listen p_is (length (chans (world p)))
                                      (length (scopes (world p))))].
Proof. unfold arm; simpl. rewrite length_app; simpl. split; [lia | done]. Qed.

Lemma orchestrate_exit c p p' :
  wf (world p) ->
  (exists r, orchestrate c p = Done r p') \/
  (exists msg, orchestrate c p = Panic msg p') ->
  listeners (world p') = listeners (world p) ++ [load_listener p] /\
  cancelled (world p') (length (scopes (world p))) = true.
Proof.
  intros W H. pose proof (orchestrate_outcome c p W) as O. cbv zeta in O.
  destruct (arm_scopes (IsLifecycle "load") p) as [Hlen Hls].
  destruct (replies p) as [|r rs].
  { rewrite O in H. by destruct H as [[? ?]|[? ?]]. }
  destruct O as (w & Es & Ww & G & O).
  assert (Hfin : forall w0,
    listeners w0 = listeners (world (arm (IsLifecycle "load") p)) ->
    length (scopes w0) = length (scopes (world (arm (IsLifecycle "load") p))) ->
    listeners (set_scopes (<[length (scopes (world p)):=true]> (scopes w0)) w0)
    = listeners (world p) ++ [load_listener p] /\
    cancelled (set_scopes (<[length (scopes (world p)):=true]> (scopes w0)) w0)
              (length (scopes (world p))) = true).
  { intros w0 Hq1 Hq2. split.
    - simpl. by rewrite Hq1, Hls.
    - apply cancelled_after_cancel. rewrite Hq2, Hlen. lia. }
  destruct (r_err r) as [e|].
  - rewrite O in H. destruct H as [[r0 [= _ <-]]|[? ?]]; [|done].
    simpl. apply (Hfin w); [exact (g_listeners _ _ G) | exact (g_scopes _ _ G)].
  - destruct O as [(res & consumed & rest & w' & Hp & Esw & W' & G' & Hsel & O)
                  | (w' & _ & _ & O)]; rewrite O in H.
    + destruct H as [[r0 [= _ <-]]|[? ?]]; [|done].
      simpl. apply (Hfin w').
      * exact (eq_trans (g_listeners _ _ G') (g_listeners _ _ G)).
      * exact (eq_trans (g_scopes _ _ G') (g_scopes _ _ G)).
    + by destruct H as [[? ?]|[? ?]].
Qed.

Lemma to_entry_exit entries i p p' :
  wf (world p) ->
  (exists r, to_entry entries i p = Done r p') \/
  (exists msg, to_entry entries i p = Panic msg p') ->
  listeners (world p') = listeners (world p) ++ [load_listener p] /\
  cancelled (world p') (length (scopes (world p))) = true.
Proof.
  intros W H. destruct (index_cases entries i) as [(en & _ & _ & E) | (msg & E)].
  - rewrite (to_entry_ok _ _ _ E) in H. by eapply orchestrate_exit.
  - unfold to_entry in H. rewrite E in H. simpl in H.
    destruct (arm_scopes (IsLifecycle "load") p) as [Hlen Hls].
    destruct H as [[r H]|[m H]]; [done|]. injection H as _ <-. simpl. split.
    + done.
    + pose proof (cancelled_after_cancel (length (scopes (world p)))
                    (world (arm (IsLifecycle "load") p))) as Hc.
      apply Hc. rewrite Hlen. lia.
Qed.

(** X9: no listener is left behind.  When one of the five actions returns
    or panics on a well-formed world, every listener in the registry that
    was not there when the action started has had its scope cancelled; only
    an action that never returns (no answer, or a wait that never ends)
    keeps its listener subscribed. *)
Theorem exit_releases_listener (o : Op) (p p' : Proc) :
  wf (world p) ->
  (exists r, run o p = Done r p') \/ (exists msg, run o p = Panic msg p') ->
  forall l, l ∈ listeners (world p') ->
            l ∈ listeners (world p) \/ cancelled (world p') (l_ctx l) = true.
Proof.
  intros W.
  assert (Hnew : forall q,
    wf (world q) -> listeners (world q) = listeners (world p) ->
    listeners (world p') = listeners (world q) ++ [load_listener q] /\
    cancelled (world p') (length (scopes (world q))) = true ->
    forall l, l ∈ listeners (world p') ->
              l ∈ listeners (world p) \/ cancelled (world p') (l_ctx l) = true).
  { intros q Wq Hq [H1 H2] l Hl. rewrite H1, Hq in Hl.
    apply elem_of_app in Hl as [Hl|Hl]; [by left|].
    apply list_elem_of_singleton in Hl. subst l. by right. }
  assert (Horch : forall c,
    (exists r, orchestrate c p = Done r p') \/
    (exists msg, orchestrate c p = Panic msg p') ->
    forall l, l ∈ listeners (world p') ->
              l ∈ listeners (world p) \/ cancelled (world p') (l_ctx l) = true).
  { intros c H. apply (Hnew p W eq_refl). by eapply orchestrate_exit. }
  assert (Hhist : forall (g : Reply -> bool) (j : Reply -> Z),
    let act := match Do page.GetNavigationHistory p with
               | Done h p1 =>
                   match r_err h with
                   | Some err => Done (Some err) p1
                   | None =>
                       if g h
                       then Done (Some (errors_New "invalid navigation entry")) p1
                       else to_entry (r_entries h) (j h) p1
                   end
               | Panic msg p1 => Panic msg p1
               | Blocked p1 => Blocked p1
               end in
    (exists r, act = Done r p') \/ (exists msg, act = Panic msg p') ->
    forall l, l ∈ listeners (world p') ->
              l ∈ listeners (world p) \/ cancelled (world p') (l_ctx l) = true).
  { intros g j. simpl.
    pose proof (Do_final_wf page.GetNavigationHistory p W) as W1.
    destruct (replies p) as [|h0 rs] eqn:Hr.
    { rewrite Do_eq, Hr. by intros [[? ?]|[? ?]]. }
    destruct (Do_wf page.GetNavigationHistory p h0 rs W Hr) as (w & Es & Ww & G & HD).
    rewrite HD in *. clear W1.
    set (p1 := set_world w (set_replies rs
                 (record (CDo page.GetNavigationHistory) p))) in *.
    assert (Hsame : forall l, l ∈ listeners (world p1) ->
              l ∈ listeners (world p) \/ cancelled (world p1) (l_ctx l) = true).
    { intros l Hl. left. by rewrite <- (g_listeners _ _ G). }
    destruct (r_err h0).
    { intros [[r [= _ <-]]|[? ?]]; [|done]. exact Hsame. }
    destruct (g h0).
    { intros [[r [= _ <-]]|[? ?]]; [|done]. exact Hsame. }
    intros H.
    apply (Hnew p1 Ww); [exact (g_listeners _ _ G)|].
    by apply (to_entry_exit (r_entries h0) (j h0) p1 p' Ww). }
  destruct o as [u|id| | |]; simpl.
  - apply Horch.
  - apply Horch.
  - rewrite NavigateBack_eq. apply Hhist.
  - rewrite NavigateForward_eq. apply Hhist.
  - apply Horch.
Qed.

Lemma orchestrate_no_panic c p msg p' :
  wf (world p) -> orchestrate c p <> Panic msg p'.
Proof.
  intros W H. pose proof (orchestrate_outcome c p W) as O. cbv zeta in O.
  destruct (replies p) as [|r rs]; [congruence|].
  destruct O as (w & _ & _ & _ & O).
  destruct (r_err r); [congruence|].
  destruct O as [(? & ? & ? & ? & _ & _ & _ & _ & _ & O) | (? & _ & _ & O)];
    congruence.
Qed.

Lemma index_panics entries i (p : Proc) :
  (exists en, entries !! Z.to_nat i = Some (Some en) /\ index entries i = ret en) \/
  (index entries i = panic "index out of range" /\
   (i < 0 \/ Z.of_nat (length entries) <= i)) \/
  (index entries i = panic "nil pointer dereference" /\
   0 <= i /\ entries !! Z.to_nat i = Some None).
Proof.
  unfold index. destruct (i <? 0) eqn:E.
  { apply Z.ltb_lt in E. right. left. split; [done | by left]. }
  apply Z.ltb_ge in E.
  destruct (entries !! Z.to_nat i) as [[en|]|] eqn:Hl.
  - left. by exists en.
  - right. right. by split.
  - right. left. split; [done|]. right. apply lookup_ge_None in Hl. lia.
Qed.

(** X10: the index checks of back and forward keep the slice access in
    range.  On a well-formed world none of the five actions panics, with
    one exception: back and forward panic with a nil pointer dereference
    when the history answer holds a nil entry at the position they go to.
    In particular [entries[cur-1]] and [entries[cur+1]] are never out of
    range. *)
Theorem panics_only_on_nil_entry (o : Op) (p p' : Proc) (msg : string) :
  wf (world p) ->
  run o p = Panic msg p' ->
  msg = "nil pointer dereference" /\
  exists h, h ∈ replies p /\ r_err h = None /\
    ((o = ONavigateBack /\ 0 < r_cur h /\
      r_entries h !! Z.to_nat (r_cur h - 1) = Some None) \/
     (o = ONavigateForward /\ 0 <= r_cur h /\
      r_entries h !! Z.to_nat (r_cur h + 1) = Some None)).
Proof.
  intros W.
  assert (Hhist : forall (g : Reply -> bool) (j : Reply -> Z),
    (forall h, g h = false -> 0 <= j h < Z.of_nat (length (r_entries h))) ->
    match Do page.GetNavigationHistory p with
    | Done h p1 =>
        match r_err h with
        | Some err => Done (Some err) p1
        | None =>
            if g h then Done (Some (errors_New "invalid navigation entry")) p1
            else to_entry (r_entries h) (j h) p1
        end
    | Panic msg p1 => Panic msg p1
    | Blocked p1 => Blocked p1
    end = Panic msg p' ->
    msg = "nil pointer dereference" /\
    exists h, h ∈ replies p /\ r_err h = None /\ g h = false /\
              r_entries h !! Z.to_nat (j h) = Some None).
  { intros g j Hg.
    destruct (replies p) as [|h rs] eqn:Hr.
    { by rewrite Do_eq, Hr. }
    destruct (Do_wf page.GetNavigationHistory p h rs W Hr) as (w & Es & Ww & G & ->).
    destruct (r_err h) eqn:He; [done|]. destruct (g h) eqn:Hgh; [done|].
    set (p1 := set_world w _).
    destruct (index_panics (r_entries h) (j h) p1)
      as [(en & _ & E) | [[E Hout] | (E & Hpos & Hnil)]].
    - rewrite (to_entry_ok _ _ _ E). intros H.
      by apply (orchestrate_no_panic _ p1 msg p' Ww) in H.
    - specialize (Hg h Hgh). lia.
    - destruct (to_entry_panic _ _ _ p1 E) as (q & -> & _). intros [= <- _].
      split; [done|]. exists h. split; [apply list_elem_of_here | done]. }
  destruct o as [u|id| | |]; simpl; intros H;
    try by apply (orchestrate_no_panic _ p msg p' W) in H.
  - rewrite NavigateBack_eq in H.
    apply (Hhist (fun h => (r_cur h <=? 0)
                           || (r_cur h >? Z.of_nat (length (r_entries h)) - 1))
                 (fun h => r_cur h - 1)) in H.
    + destruct H as (-> & h & Hin & He & Hg & Hn). split; [done|].
      exists h. split; [done|]. split; [done|]. left.
      apply orb_false_iff in Hg as [Hg _]. split; [done|]. split; [lia | done].
    + intros h Hg. apply orb_false_iff in Hg as [H1 H2]. lia.
  - rewrite NavigateForward_eq in H.
    apply (Hhist (fun h => (r_cur h <? 0)
                           || (r_cur h >=? Z.of_nat (length (r_entries h)) - 1))
                 (fun h => r_cur h + 1)) in H.
    + destruct H as (-> & h & Hin & He & Hg & Hn). split; [done|].
      exists h. split; [done|]. split; [done|]. right.
      apply orb_false_iff in Hg as [Hg _]. split; [done|]. split; [lia | done].
    + intros h Hg. apply orb_false_iff in Hg as [H1 H2]. lia.
Qed.

(** X11: when the history request itself fails, back and forward return
    its error as it is and stop there, in the state the request left: no
    listener is registered and no navigation command is sent. *)
Theorem history_error_returned (p p1 : Proc) (h : Reply) (e : error) :
  Do page.GetNavigationHistory p = Done h p1 ->
  r_err h = Some e ->
  NavigateBack p = Done (Some e) p1 /\
  NavigateForward p = Done (Some e) p1 /\
  log p1 = log p ++ [CDo page.GetNavigationHistory] /\
  listeners (world p1) = listeners (world p).
Proof.
  intros HD He. rewrite NavigateBack_eq, NavigateForward_eq, HD, He.
  split; [done|]. split; [done|]. split; [by eapply Do_done_log|].
  apply Do_done_replies in HD as (_ & _ & Es). by eapply steps_listeners.
Qed.

(** X12: how back and forward compose.  Once the history request is
    answered and the index passes the check, [NavigateBack] is
    [NavigateToHistoryEntry] of the identifier of the entry before the
    current one, run in the state the history request left, and
    [NavigateForward] the same with the entry after the current one. *)
Theorem back_forward_compose (p p1 : Proc) (h : Reply) (en : page.NavigationEntry) :
  Do page.GetNavigationHistory p = Done h p1 ->
  r_err h = None ->
  (0 < r_cur h <= Z.of_nat (length (r_entries h)) - 1 ->
   r_entries h !! Z.to_nat (r_cur h - 1) = Some (Some en) ->
   NavigateBack p = NavigateToHistoryEntry (page.ID en) p1) /\
  (0 <= r_cur h < Z.of_nat (length (r_entries h)) - 1 ->
   r_entries h !! Z.to_nat (r_cur h + 1) = Some (Some en) ->
   NavigateForward p = NavigateToHistoryEntry (page.ID en) p1).
Proof.
  intros HD He. split; intros Hr Hl.
  - rewrite NavigateBack_eq, HD, He.
    destruct (_ || _) eqn:Hg; [apply orb_true_iff in Hg as [Hg|Hg]; lia|].
    rewrite NavigateToHistoryEntry_eq, (to_entry_ok _ _ en); [done|].
    unfold index. destruct (r_cur h - 1 <? 0) eqn:E; [apply Z.ltb_lt in E; lia|].
    by rewrite Hl.
  - rewrite NavigateForward_eq, HD, He.
    destruct (_ || _) eqn:Hg; [apply orb_true_iff in Hg as [Hg|Hg]; lia|].
    rewrite NavigateToHistoryEntry_eq, (to_entry_ok _ _ en); [done|].
    unfold index. destruct (r_cur h + 1 <? 0) eqn:E; [apply Z.ltb_lt in E; lia|].
    by rewrite Hl.
Qed.

(** X13: the registry invariant is kept by everything: from a world in
    which every listener has its own channel and its own scope and a
    closed channel means a cancelled scope, each of the five actions ends
    -- returned, panicked or blocked -- in such a world again, and so does
    every run of steps of the other goroutines, none of which panics. *)
Theorem registry_invariant_kept (o : Op) (p : Proc) (tr : list Step) :
  wf (world p) ->
  wf (world (final (run o p))) /\
  exists w', steps tr (world p) = Done tt w' /\ wf w'.
Proof.
  intros W. split; [by apply run_wf|].
  destruct (steps_spec tr _ W) as (w' & E & W' & _). eauto.
Qed.

(** X14: [CaptureScreenshot] panics when built with a nil pointer; built
    with a pointer, its action sends the one command, registers no
    listener, and once answered stores the bytes of the answer where the
    pointer points -- whether the answer carries an error or not -- and
    returns the answer's error. *)
Theorem CaptureScreenshot_contract :
  CaptureScreenshot None = Aborted "res cannot be nil" /\
  forall ptr, exists act,
    CaptureScreenshot (Some ptr) = Action act /\
    forall p r p1,
      Do page.CaptureScreenshot p = Done r p1 ->
      exists p2,
        act p = Done (r_err r) p2 /\
        mem_bytes p2 !! ptr = Some (r_data r) /\
        (forall q, q <> ptr -> mem_bytes p2 !! q = mem_bytes p !! q) /\
        world p2 = world p1 /\
        listeners (world p2) = listeners (world p) /\
        log p2 = log p ++ [CDo page.CaptureScreenshot].
Proof.
  split; [done|]. intros ptr. eexists. split; [reflexivity|].
  intros p r p1 HD. unfold bind. rewrite HD.
  assert (Hm : mem_bytes p1 = mem_bytes p).
  { rewrite Do_eq in HD. destruct (replies p) as [|r0 rs]; [done|].
    destruct (steps (during r0) (world p)) as [[] w| |]; try done.
    by injection HD as <- <-. }
  eexists. split; [reflexivity|]. simpl. rewrite Hm.
  split; [by rewrite lookup_insert_eq|].
  split; [intros q Hq; by rewrite lookup_insert_ne|].
  split; [done|]. split; [|by eapply Do_done_log].
  apply Do_done_replies in HD as (_ & _ & Es). by eapply steps_listeners.
Qed.

(** X15: [Stop] does not wait for anything: on a well-formed world it
    returns as soon as its command is answered, with the answer's error,
    having registered no listener and consumed nothing of what would
    happen during a wait -- also when no load event ever comes. *)
Theorem Stop_does_not_wait (p : Proc) (r : Reply) (rs : list Reply) :
  wf (world p) ->
  replies p = r :: rs ->
  exists p',
    Stop p = Done (r_err r) p' /\
    steps (during r) (world p) = Done tt (world p') /\
    pending p' = pending p /\
    listeners (world p') = listeners (world p) /\
    log p' = log p ++ [CDo page.StopLoading].
Proof.
  intros W Hr. unfold Stop, bind.
  destruct (Do_wf page.StopLoading p r rs W Hr) as (w & Es & _ & G & ->).
  eexists. split; [reflexivity|]. simpl.
  split; [done|]. split; [done|]. split; [apply G | done].
Qed.

Lemma orchestrate_success_in_flight c p r rs ev :
  wf (world p) -> ctx_err (world p) = None ->
  replies p = r :: rs -> r_err r = None -> during r = [Deliver ev] ->
  result (apply_is (IsLifecycle "load") ev (world p)) = Some true ->
  exists p',
    orchestrate c p = Done None p' /\ pending p' = pending p /\
    cancelled (world p') (length (scopes (world p))) = true /\
    log p' = log p ++ [CListen (load_listener p); CDo c;
                       CExpect (length (chans (world p)));
                       CRelease (length (scopes (world p)))].
Proof.
  intros W Hlive Hr He Hd Hm.
  pose proof (arm_wf (IsLifecycle "load") p W) as W1.
  destruct (arm_fresh (IsLifecycle "load") p) as (_ & Hx & Hin).
  destruct (arm_scopes (IsLifecycle "load") p) as [Hlen _].
  set (pa := arm (IsLifecycle "load") p) in *.
  assert (Hsd : scope_done (world pa) (length (scopes (world p))) = false).
  { unfold scope_done. rewrite Hx. simpl. by rewrite Hlive. }
  assert (Hm' : result (apply_is (IsLifecycle "load") ev (world pa)) = Some true).
  { apply apply_is_true. by apply apply_is_true in Hm. }
  destruct (deliver_match _ _ _ _ _ W1 Hin Hsd Hm')
    as (_ & w & Ew & Ww & G & Hc & Hcl & Hcan).
  unfold orchestrate, expectLifecycleLoaded, expectLifecycleEvent, bind.
  rewrite expectEvent_eq. unfold defer, bind. fold pa.
  rewrite Do_eq. change (replies pa) with (replies p). rewrite Hr, Hd.
  cbn [steps]. unfold bind. rewrite Ew. unfold ret. rewrite He, wait_eq.
  cbn [world set_world coin pending set_replies record].
  rewrite (block_ready _ _ _ _ None).
  2:{ unfold select. rewrite Hcl, Hc. simpl. by rewrite Hlive. }
  eexists. split; [reflexivity|]. simpl. split; [done|]. split.
  - apply cancelled_after_cancel. rewrite (g_scopes _ _ G), Hlen. lia.
  - by rewrite <- !app_assoc.
Qed.

Lemma orchestrate_success_waiting c p r rs ev rest :
  wf (world p) -> ctx_err (world p) = None ->
  replies p = r :: rs -> r_err r = None -> during r = [] ->
  pending p = Deliver ev :: rest ->
  result (apply_is (IsLifecycle "load") ev (world p)) = Some true ->
  exists p',
    orchestrate c p = Done None p' /\ pending p' = rest /\
    cancelled (world p') (length (scopes (world p))) = true /\
    log p' = log p ++ [CListen (load_listener p); CDo c;
                       CExpect (length (chans (world p)));
                       CRelease (length (scopes (world p)))].
Proof.
  intros W Hlive Hr He Hd Hp Hm.
  pose proof (arm_wf (IsLifecycle "load") p W) as W1.
  destruct (arm_fresh (IsLifecycle "load") p) as (Hopen & Hx & Hin).
  destruct (arm_scopes (IsLifecycle "load") p) as [Hlen _].
  set (pa := arm (IsLifecycle "load") p) in *.
  assert (Hsd : scope_done (world pa) (length (scopes (world p))) = false).
  { unfold scope_done. rewrite Hx. simpl. by rewrite Hlive. }
  assert (Hm' : result (apply_is (IsLifecycle "load") ev (world pa)) = Some true).
  { apply apply_is_true. by apply apply_is_true in Hm. }
  destruct (deliver_match _ _ _ _ _ W1 Hin Hsd Hm')
    as (_ & w & Ew & Ww & G & Hc & Hcl & Hcan).
  unfold orchestrate, expectLifecycleLoaded, expectLifecycleEvent, bind.
  rewrite expectEvent_eq. unfold defer, bind. fold pa.
  rewrite Do_eq. change (replies pa) with (replies p). rewrite Hr, Hd.
  cbn [steps]. unfold ret. rewrite He, wait_eq.
  cbn [world set_world coin pending set_replies record].
  change (pending pa) with (pending p). rewrite Hp. cbn [block].
  assert (Hs0 : select (length (chans (world p))) (coin pa) (world pa) = None).
  { apply select_none. split; [done | exact Hlive]. }
  rewrite Hs0, Ew.
  rewrite (block_ready _ _ _ _ None).
  2:{ unfold select. rewrite Hcl, Hc. simpl. by rewrite Hlive. }
  eexists. split; [reflexivity|]. simpl. split; [done|]. split.
  - apply cancelled_after_cancel. rewrite (g_scopes _ _ G), Hlen. lia.
  - by rewrite <- !app_assoc.
Qed.

(** X16: the load resolves the action.  Take a well-formed world with a
    live governing context, a navigation command that is answered without
    error, and an event the "load" predicate accepts.  If the event is
    delivered while the command is still in flight, [Navigate],
    [NavigateToHistoryEntry] and [Reload] return nil without waiting any
    further; if it is the first thing delivered once they wait, they
    return nil having consumed just that delivery.  Either way the
    listener's scope is cancelled at the end. *)
Theorem load_event_resolves_action
  (o : Op) (p : Proc) (r : Reply) (rs : list Reply) (ev : Event) :
  wf (world p) ->
  ctx_err (world p) = None ->
  replies p = r :: rs ->
  r_err r = None ->
  result (apply_is (IsLifecycle "load") ev (world p)) = Some true ->
  o <> ONavigateBack -> o <> ONavigateForward ->
  (during r = [Deliver ev] ->
   exists p', run o p = Done None p' /\ pending p' = pending p /\
              cancelled (world p') (length (scopes (world p))) = true) /\
  (during r = [] -> forall rest, pending p = Deliver ev :: rest ->
   exists p', run o p = Done None p' /\ pending p' = rest /\
              cancelled (world p') (length (scopes (world p))) = true).
Proof.
  intros W Hlive Hr He Hm Hb Hf.
  assert (Horch : forall c,
    (during r = [Deliver ev] ->
     exists p', orchestrate c p = Done None p' /\ pending p' = pending p /\
                cancelled (world p') (length (scopes (world p))) = true) /\
    (during r = [] -> forall rest, pending p = Deliver ev :: rest ->
     exists p', orchestrate c p = Done None p' /\ pending p' = rest /\
                cancelled (world p') (length (scopes (world p))) = true)).
  { intros c. split.
    - intros Hd.
      destruct (orchestrate_success_in_flight c p r rs ev W Hlive Hr He Hd Hm)
        as (p' & E & Hp & Hc & _). by exists p'.
    - intros Hd rest Hp.
      destruct (orchestrate_success_waiting c p r rs ev rest W Hlive Hr He Hd Hp Hm)
        as (p' & E & Hp' & Hc & _). by exists p'. }
  destruct o as [u|id| | |]; simpl; try done; apply Horch.
Qed.

(** ** The further properties at sample inputs *)

Lemma wf_p_armed : wf (world p_armed).
Proof. apply arm_wf, wf_world0. Qed.

Lemma wf_world_no_frame : wf world_no_frame.
Proof.
  pose proof wf_p_armed as W. constructor; simpl; apply W.
Qed.

Lemma delivery_without_match_is_noop_witness :
  step (Deliver (load "B")) (world p_armed) = Done tt (world p_armed).
Proof.
  apply (delivery_without_match_is_noop (load "B") (world p_armed)).
  - reflexivity.
  - intros l Hl _. simpl in Hl. apply list_elem_of_singleton in Hl. subst l.
    reflexivity.
Defined.

Lemma delivery_closes_exactly_witness :
  wf (world p_armed) /\
  exists w', step (Deliver (load "A")) (world p_armed) = Done tt w' /\
             ctx_err w' = ctx_err (world p_armed).
Proof.
  split; [exact wf_p_armed|].
  destruct (delivery_closes_exactly (load "A") (world p_armed) wf_p_armed)
    as (w' & E & Hc & _).
  exists w'. split; [exact E | exact Hc].
Defined.

Lemma released_barrier_never_resolves_witness :
  wf (world (proc0 [] [])) /\
  forall tr' w3, steps tr' world_released = Done tt w3 -> closed w3 0%nat = false.
Proof.
  split; [exact wf_world0|].
  exact (proj1 (released_barrier_never_resolves
                  (proc0 [] []) p_armed (IsLifecycle "load") 0%nat 0%nat
                  [CallRelease 0%nat] world_released
                  wf_world0 eq_refl eq_refl eq_refl eq_refl)).
Defined.

Lemma expect_blocks_iff_witness :
  wf (world p_armed) /\ exists p', wait (Expect 0%nat) p_armed = Blocked p'.
Proof.
  split; [exact wf_p_armed|].
  destruct (expect_blocks_iff 0%nat p_armed wf_p_armed eq_refl
              (or_introl (Forall_nil_2 _)))
    as (w_end & E & Hiff & _).
  apply Hiff. simpl in E. injection E as <-. split; reflexivity.
Defined.

Lemma empty_identity_matches_empty_frame_witness :
  result (apply_is (IsLifecycle "load")
            (LifecycleEvent (page.mkLifecycle "" "L" "load")) world_no_target)
  = Some true.
Proof.
  exact (empty_identity_matches_empty_frame
           "load" (page.mkLifecycle "" "L" "load") world_no_target
           (or_introl eq_refl)).
Defined.

Lemma delivery_read_lock_leak_witness :
  wf world_no_frame /\
  exists w', step (Deliver (load "A")) world_no_frame = Done tt w' /\
             readers w' = 1%nat.
Proof.
  split; [exact wf_world_no_frame|].
  exact (delivery_read_lock_leak (load "A") world_no_frame wf_world_no_frame).
Defined.

Lemma action_error_provenance_witness :
  (exists r, r ∈ replies (proc0 [refused] []) /\
             r_err r = Some (ProtocolError "net")) \/
  ctx_err (world (final (Navigate "u" (proc0 [refused] []))))
  = Some (ProtocolError "net") \/
  ((ONavigate "u" = ONavigateBack \/ ONavigate "u" = ONavigateForward) /\
   ProtocolError "net" = errors_New "invalid navigation entry").
Proof.
  exact (action_error_provenance
           (ONavigate "u") (proc0 [refused] [])
           (final (Navigate "u" (proc0 [refused] []))) (ProtocolError "net")
           eq_refl).
Defined.

Lemma success_needs_load_event_witness :
  wf (world p_loading) /\
  exists r, r ∈ replies p_loading /\ r_err r = None.
Proof.
  split; [exact wf_world0|].
  destruct (success_needs_load_event
              (ONavigate "u") p_loading (final (Navigate "u" p_loading))
              wf_world0 eq_refl) as (pa & r & consumed & _ & Hin & He & _).
  exists r. split; [exact Hin | exact He].
Defined.

Lemma exit_releases_listener_witness :
  wf (world p_loading) /\
  forall l, l ∈ listeners (world (final (Navigate "u" p_loading))) ->
            l ∈ listeners (world p_loading) \/
            cancelled (world (final (Navigate "u" p_loading))) (l_ctx l) = true.
Proof.
  split; [exact wf_world0|].
  apply (exit_releases_listener (ONavigate "u") p_loading
           (final (Navigate "u" p_loading)) wf_world0).
  left. exists None. reflexivity.
Defined.

Lemma panics_only_on_nil_entry_witness :
  wf (world (proc0 [history_nil] [])) /\
  exists h, h ∈ replies (proc0 [history_nil] []) /\ r_err h = None.
Proof.
  split; [exact wf_world0|].
  destruct (panics_only_on_nil_entry
              ONavigateBack (proc0 [history_nil] [])
              (final (NavigateBack (proc0 [history_nil] [])))
              "nil pointer dereference" wf_world0 eq_refl)
    as (_ & h & Hin & He & _).
  exists h. split; [exact Hin | exact He].
Defined.

Lemma history_error_returned_witness :
  NavigateBack (proc0 [refused] [])
  = Done (Some (ProtocolError "net"))
         (final (Do page.GetNavigationHistory (proc0 [refused] []))).
Proof.
  exact (proj1 (history_error_returned (proc0 [refused] []) _ refused
                  (ProtocolError "net") eq_refl eq_refl)).
Defined.

Lemma back_forward_compose_witness :
  NavigateBack (proc0 [history 1; ack []] [])
  = NavigateToHistoryEntry 7
      (final (Do page.GetNavigationHistory (proc0 [history 1; ack []] []))).
Proof.
  apply (proj1 (back_forward_compose (proc0 [history 1; ack []] []) _ (history 1)
                  entry0 eq_refl eq_refl)).
  - simpl. lia.
  - reflexivity.
Defined.

Lemma registry_invariant_kept_witness :
  wf (world p_loading) /\
  wf (world (final (run OReload p_loading))).
Proof.
  split; [exact wf_world0|].
  exact (proj1 (registry_invariant_kept OReload p_loading [] wf_world0)).
Defined.

Lemma Stop_does_not_wait_witness :
  wf (world (proc0 [ack []] [Deliver (load "A")])) /\
  exists p', Stop (proc0 [ack []] [Deliver (load "A")]) = Done None p' /\
             pending p' = [Deliver (load "A")].
Proof.
  split; [exact wf_world0|].
  destruct (Stop_does_not_wait (proc0 [ack []] [Deliver (load "A")]) (ack []) []
              wf_world0 eq_refl) as (p' & E & _ & Hp & _).
  exists p'. split; [exact E | exact Hp].
Defined.

Lemma load_event_resolves_action_witness :
  wf (world p_loading) /\
  exists p', run OReload p_loading = Done None p' /\
             pending p' = pending p_loading /\
             cancelled (world p') (length (scopes (world p_loading))) = true.
Proof.
  split; [exact wf_world0|].
  apply (proj1 (load_event_resolves_action
                  OReload p_loading (ack [Deliver (load "A")]) [] (load "A")
                  wf_world0 eq_refl eq_refl eq_refl eq_refl
                  ltac:(discriminate) ltac:(discriminate))).
  reflexivity.
Defined.

(** X17: barriers do not resolve one another.  In a well-formed world, a
    listener that does not take an event -- because its scope is done, or
    because its predicate rejects the event, for instance a "load" of
    another frame -- keeps its channel and its scope exactly as they were
    through the delivery of that event, whatever the other listeners do
    with it. *)
Theorem barrier_isolated (ev : Event) (w : World) (l : cancelableListener) :
  wf w ->
  l ∈ listeners w ->
  scope_done w (l_ctx l) = true \/ result (apply_is (l_is l) ev w) = Some false ->
  exists w',
    step (Deliver ev) w = Done tt w' /\
    closed w' (l_ok l) = closed w (l_ok l) /\
    cancelled w' (l_ctx l) = cancelled w (l_ctx l).
Proof.
  intros W Hl Hno. simpl.
  destruct (dispatch_spec (listeners w) ev w W) as (w' & E & D); [done | apply W |].
  exists w'. split; [done|].
  assert (Hf : fires l ev w = false).
  { unfold fires. destruct Hno as [-> | Hm]; [done|].
    destruct (apply_is_spec (l_is l) ev w) as (w1 & E1 & _). rewrite E1 in Hm.
    simpl in Hm. injection Hm as ->. by rewrite andb_false_r. }
  rewrite (d_closed _ _ _ _ D), (d_cancelled _ _ _ _ D). split.
  - destruct (hit_ok (listeners w) ev w (l_ok l)) eqn:Hh; [|by rewrite orb_false_r].
    apply hit_ok_true in Hh as (l' & Hl' & Hf' & Heq).
    assert (l = l') by (eapply fmap_inj_in; [apply (wf_ok_inj _ W) | done..]).
    subst l'. congruence.
  - destruct (hit_ctx (listeners w) ev w (l_ctx l)) eqn:Hh; [|by rewrite orb_false_r].
    apply hit_ctx_true in Hh as (l' & Hl' & Hf' & Heq).
    assert (l = l') by (eapply fmap_inj_in; [apply (wf_ctx_inj _ W) | done..]).
    subst l'. congruence.
Qed.

Lemma barrier_isolated_witness :
  wf (world p_armed) /\
  exists w',
    step (Deliver (load "B")) (world p_armed) = Done tt w' /\
    closed w' 0%nat = false /\ cancelled w' 0%nat = false.
Proof.
  split; [exact wf_p_armed|].
  apply (barrier_isolated (load "B") (world p_armed)
           (mkListener 0%nat (Listen (IsLifecycle "load") 0%nat 0%nat)) wf_p_armed).
  - simpl. apply list_elem_of_here.
  - right. reflexivity.
Defined.
